(** * kubernetes-cloudflare-sync: the node-event pipeline of [main.go]

    A shallow embedding of the [resync] closure of [main.go] (node listing,
    address aggregation, change suppression, the call to [sync]) and of
    [nodeIsReady], together with the properties the design document states
    about them.

    Strings are byte strings ([String.string]); Go's [<] on strings is the
    byte-wise lexicographic order, which is [String.compare]. *)

From Stdlib Require Import List Bool Arith Lia ZArith.
From Stdlib Require Import Ascii String.
From Stdlib Require Import Permutation Sorted.
From Stdlib Require Import OrderedTypeEx.
Import ListNotations.

Set Implicit Arguments.

(* ================================================================== *)
(** ** Data model *)
(* ================================================================== *)

(** The string-typed enumerations of [k8s.io/api/core/v1] that [main.go]
    compares against. In Go they are named string types, so a value read
    from the cluster may be any string. *)
Module core_v1.

Definition NodeAddressType := string.
Definition NodeConditionType := string.
Definition ConditionStatus := string.

Definition NodeExternalIP : NodeAddressType := "ExternalIP"%string.
Definition NodeInternalIP : NodeAddressType := "InternalIP"%string.
Definition NodeHostName : NodeAddressType := "Hostname"%string.

Definition NodeReady : NodeConditionType := "Ready"%string.
Definition NodeMemoryPressure : NodeConditionType := "MemoryPressure"%string.

Definition ConditionTrue : ConditionStatus := "True"%string.
Definition ConditionFalse : ConditionStatus := "False"%string.
Definition ConditionUnknown : ConditionStatus := "Unknown"%string.

Record NodeAddress := mkAddr
  { addrType : NodeAddressType;
    Address : string }.

Record NodeCondition := mkCond
  { condType : NodeConditionType;
    condStatus : ConditionStatus }.

Record NodeStatus := mkStatus
  { Conditions : list NodeCondition;
    Addresses : list NodeAddress }.

Record Node := mkNode
  { Name : string;
    Status : NodeStatus }.

End core_v1.
Import core_v1.

(** Go's [error] interface value: [None] is [nil]. *)
Abbreviation error := (option string).

(** The fields of the package-level [options] struct that [resync] reads,
    and the values [main] derives from the others before it builds the
    closure. *)
Record Options := mkOptions
  { UseInternalIP : bool;
    SkipExternalIP : bool;
    dnsNames : list string;
    dnsRoots : list string;
    cloudflareTTL : Z;
    cloudflareProxy : bool }.

(* ================================================================== *)
(** ** [nodeIsReady] *)
(* ================================================================== *)

(** The loop of [nodeIsReady] over [node.Status.Conditions]: the first
    condition of type [NodeReady] with status [ConditionTrue] returns
    [true]; falling off the end returns [false]. *)
Fixpoint conditionsReady (conds : list NodeCondition) : bool :=
  match conds with
  | [] => false
  | condition :: rest =>
      if String.eqb (condType condition) NodeReady
         && String.eqb (condStatus condition) ConditionTrue
      then true
      else conditionsReady rest
  end.

Definition nodeIsReady (node : Node) : bool :=
  conditionsReady (Conditions (Status node)).

(* ================================================================== *)
(** ** Library routines used by [resync] *)
(* ================================================================== *)

(** [sort.Strings]: sorts in increasing order of Go's [<] on strings. The
    order is total and antisymmetric, so the sorted rearrangement of a
    slice is unique and any sorting routine computes it; insertion (which
    the Go library itself uses on short slices) is taken here. *)
Fixpoint insert (x : string) (data : list string) : list string :=
  match data with
  | [] => [x]
  | y :: rest => if String.ltb x y then x :: data else y :: insert x rest
  end.

Fixpoint sort_Strings (data : list string) : list string :=
  match data with
  | [] => []
  | x :: rest => insert x (sort_Strings rest)
  end.

(** [strings.Join(elems, sep)]: empty for no element, the element itself
    for one, otherwise the first element followed by [sep ++ s] for each
    further element [s]. *)
Fixpoint joinRest (sep : string) (elems : list string) : string :=
  match elems with
  | [] => EmptyString
  | s :: rest => String.append sep (String.append s (joinRest sep rest))
  end.

Definition strings_Join (elems : list string) (sep : string) : string :=
  match elems with
  | [] => EmptyString
  | first :: rest => String.append first (joinRest sep rest)
  end.

(* ================================================================== *)
(** ** Aggregation: lines 123-147 of [resync] *)
(* ================================================================== *)

(** Inner loop: [for _, addr := range node.Status.Addresses], appending
    the addresses of type [ty] to [ips]. *)
Fixpoint appendAddresses (ty : NodeAddressType) (addrs : list NodeAddress)
    (ips : list string) : list string :=
  match addrs with
  | [] => ips
  | addr :: rest =>
      appendAddresses ty rest
        (if String.eqb (addrType addr) ty then ips ++ [Address addr] else ips)
  end.

(** Outer loop: [for _, node := range nodes], guarded by [nodeIsReady]. *)
Fixpoint collect (ty : NodeAddressType) (nodes : list Node)
    (ips : list string) : list string :=
  match nodes with
  | [] => ips
  | node :: rest =>
      collect ty rest
        (if nodeIsReady node
         then appendAddresses ty (Addresses (Status node)) ips
         else ips)
  end.

(** [ips] as it stands just before [sort.Strings]. *)
Definition gather (o : Options) (nodes : list Node) : list string :=
  let ips := [] in
  let ips := if negb (SkipExternalIP o) then collect NodeExternalIP nodes ips else ips in
  let ips :=
    if UseInternalIP o && (List.length ips =? 0)
    then collect NodeInternalIP nodes ips
    else ips in
  ips.

(** [ips] after [sort.Strings(ips)]: the desired address set of the pass. *)
Definition aggregate (o : Options) (nodes : list Node) : list string :=
  sort_Strings (gather o nodes).

(* ================================================================== *)
(** ** The [resync] closure *)
(* ================================================================== *)

(** What a pass does that is visible from outside: the lines it logs and
    the call to [sync] with its arguments. *)
Inductive event :=
| LogResyncing
| LogFailedToListNodes (err : string)
| LogIPs (ips : list string)
| LogNoChange
| CallSync (ips names roots : list string) (ttl : Z) (proxy : bool)
| LogFailedToSync (err : string).

(** The arguments of the [sync] calls recorded in a trace, oldest first. *)
Fixpoint syncCalls (tr : list event) : list (list string) :=
  match tr with
  | [] => []
  | CallSync ips _ _ _ _ :: rest => ips :: syncCalls rest
  | _ :: rest => syncCalls rest
  end.

Section Resync.

(** [sync] is defined in another file of the package; [resync] only
    calls it and logs the error it returns. It is a parameter here,
    acting on an abstract provider state. *)
Variable Provider : Type.
Variable sync :
  list string -> list string -> list string -> Z -> bool ->
  Provider -> Provider * error.

Variable o : Options.

(** The variables [resync] closes over and mutates ([lastIPs]), the
    provider behind [sync], and the trace of what has been done. *)
Record World := mkWorld
  { lastIPs : list string;
    provider : Provider;
    trace : list event }.

(** [var lastIPs []string] is nil when the closure is built. *)
Definition initial (p : Provider) : World :=
  {| lastIPs := []; provider := p; trace := [] |}.

Definition logErr (mk : string -> event) (err : error) (tr : list event)
  : list event :=
  match err with
  | Some e => tr ++ [mk e]
  | None => tr
  end.

(** One call of [resync]. [listed] is what [lister.List(nodeSelector)]
    returns for this call: the node slice and the error, both of which
    the lister gives back. *)
Definition resync (listed : list Node * error) (w : World) : World :=
  let (nodes, err) := listed in
  let tr := trace w ++ [LogResyncing] in
  let tr := logErr LogFailedToListNodes err tr in
  let ips := aggregate o nodes in
  let tr := tr ++ [LogIPs ips] in
  if String.eqb (strings_Join ips ",") (strings_Join (lastIPs w) ",")
  then {| lastIPs := lastIPs w; provider := provider w;
          trace := tr ++ [LogNoChange] |}
  else
    let tr := tr ++ [CallSync ips (dnsNames o) (dnsRoots o)
                       (cloudflareTTL o) (cloudflareProxy o)] in
    let (p', err) :=
      sync ips (dnsNames o) (dnsRoots o) (cloudflareTTL o)
        (cloudflareProxy o) (provider w) in
    {| lastIPs := ips; provider := p';
       trace := logErr LogFailedToSync err tr |}.

(** The informer's handlers call [resync] once per event, one after the
    other. *)
Definition run (passes : list (list Node * error)) (w : World) : World :=
  fold_left (fun w listed => resync listed w) passes w.

End Resync.

(* ================================================================== *)
(** ** The per-name reconciliation plan *)
(* ================================================================== *)

Module Reconciler.

(** Modelled from the spec: the record the provider holds for a name
    ("identity, name, content (address string), ttl, proxy flag"). The
    file of the package that defines [sync] and talks to the provider
    is not among the sources. *)
Record ProviderRecord := mkRecord
  { recID : string;
    recName : string;
    recContent : string;
    recTTL : Z;
    recProxied : bool }.

(** Modelled from the spec: the operations of a reconciliation plan
    ("sets of addresses to create, delete, and metadata-update for one
    name"); a delete and an update name the existing record they act on. *)
Inductive operation :=
| Delete (r : ProviderRecord)
| Create (content : string)
| Update (r : ProviderRecord).

Definition mem (a : string) (l : list string) : bool :=
  existsb (String.eqb a) l.

(** Modelled from the spec: "toCreate = desiredSet - existingContents". *)
Definition toCreate (desired : list string)
    (existing : list ProviderRecord) : list string :=
  filter (fun a => negb (mem a (map recContent existing))) desired.

(** Modelled from the spec: "toDelete = existingContents - desiredSet". *)
Definition toDelete (desired : list string)
    (existing : list ProviderRecord) : list ProviderRecord :=
  filter (fun r => negb (mem (recContent r) desired)) existing.

(** Modelled from the spec: "toUpdate = records present in both sets
    whose ttl or proxy flag differs from the configured values". *)
Definition toUpdate (desired : list string)
    (existing : list ProviderRecord) (ttl : Z) (proxied : bool)
  : list ProviderRecord :=
  filter (fun r => mem (recContent r) desired
                   && (negb (Z.eqb (recTTL r) ttl)
                       || negb (Bool.eqb (recProxied r) proxied)))
    existing.

(** Modelled from the spec: "Apply in order: deletes, then creates, then
    metadata updates". The plan is the list of operations in the order
    of application. *)
Definition plan (desired : list string) (existing : list ProviderRecord)
    (ttl : Z) (proxied : bool) : list operation :=
  map Delete (toDelete desired existing)
  ++ map Create (toCreate desired existing)
  ++ map Update (toUpdate desired existing ttl proxied).

(** The position of an operation's kind in the order of application. *)
Definition phase (op : operation) : nat :=
  match op with
  | Delete _ => 0
  | Create _ => 1
  | Update _ => 2
  end.

End Reconciler.

(* ================================================================== *)
(** ** Start-up configuration: lines 58-86 of [main] *)
(* ================================================================== *)

(** [strings.Split(s, sep)] for a one-byte separator, the only kind [main]
    passes: the fields between the occurrences of [sep], in order; a
    string without [sep] (the empty string included) is its own single
    field. *)
Fixpoint strings_Split (s : string) (sep : ascii) : list string :=
  match s with
  | EmptyString => [EmptyString]
  | String c rest =>
      if Ascii.eqb c sep then EmptyString :: strings_Split rest sep
      else match strings_Split rest sep with
           | field :: fields => String c field :: fields
           | [] => [String c EmptyString]
           end
  end.

(** [strconv.ParseBool]: the twelve accepted spellings; [None] is the
    syntax error. *)
Definition strconv_ParseBool (str : string) : option bool :=
  if existsb (String.eqb str) ["1"; "t"; "T"; "TRUE"; "true"; "True"]%string
  then Some true
  else if existsb (String.eqb str)
            ["0"; "f"; "F"; "FALSE"; "false"; "False"]%string
  then Some false
  else None.

(** The value of a decimal digit byte, as [ch -= '0'; ch > 9] tests it. *)
Definition digitOf (ch : ascii) : option Z :=
  let n := Z.of_N (N_of_ascii ch) in
  if (48 <=? n)%Z && (n <=? 57)%Z then Some (n - 48)%Z else None.

(** The digit loop [n = n*10 + int(ch)]. *)
Fixpoint parseDigits (s : string) (n : Z) : option Z :=
  match s with
  | EmptyString => Some n
  | String ch rest =>
      match digitOf ch with
      | Some d => parseDigits rest (n * 10 + d)%Z
      | None => None
      end
  end.

(** [strconv.Atoi] with a 64-bit [int]: an optional sign, then at least
    one decimal digit and nothing else, the value within the range of
    [int]; [None] is the syntax or range error. *)
Definition strconv_Atoi (s : string) : option Z :=
  match s with
  | EmptyString => None
  | String c0 rest =>
      let body :=
        if Ascii.eqb c0 "-"%char || Ascii.eqb c0 "+"%char then rest else s in
      match body with
      | EmptyString => None
      | _ =>
          match parseDigits body 0 with
          | None => None
          | Some n =>
              let n := if Ascii.eqb c0 "-"%char then (- n)%Z else n in
              if (- 2 ^ 63 <=? n)%Z && (n <? 2 ^ 63)%Z then Some n else None
          end
      end
  end.

(** The package-level [options] struct as [flag.Parse] leaves it. *)
Module Flags.

Record options := mkFlags
  { CloudflareAPIEmail : string;
    CloudflareAPIKey : string;
    CloudflareAPIToken : string;
    CloudflareProxy : string;
    CloudflareTTL : string;
    DNSName : string;
    DNSRoots : string;
    UseInternalIP : bool;
    SkipExternalIP : bool;
    NodeSelector : string }.

End Flags.

(** How the configuration part of [main] ends: [log.Fatalln] with a
    message after [flag.Usage], or the values the [resync] closure is
    built over, with the lines logged on the way. *)
Inductive startup :=
| Fatal (msg : string)
| Configured (logged : list string) (o : Options).

(** The test [len(names) == 1 && names[0] == ""] applied to both split
    lists. *)
Definition onlyEmpty (names : list string) : bool :=
  (List.length names =? 1) && String.eqb (nth 0 names EmptyString) EmptyString.

Definition configure (f : Flags.options) : startup :=
  if String.eqb (Flags.CloudflareAPIToken f) EmptyString
     && (String.eqb (Flags.CloudflareAPIEmail f) EmptyString
         || String.eqb (Flags.CloudflareAPIKey f) EmptyString)
  then Fatal "cloudflare api token or email+key is required"
  else
    let dnsNames := strings_Split (Flags.DNSName f) ","%char in
    if onlyEmpty dnsNames then Fatal "dns name is required"
    else
      let dnsRoots := strings_Split (Flags.DNSRoots f) ","%char in
      if onlyEmpty dnsRoots then Fatal "dns root is required"
      else
        let (cloudflareProxy, logged) :=
          match strconv_ParseBool (Flags.CloudflareProxy f) with
          | Some b => (b, [])
          | None =>
              (false,
               ["CloudflareProxy config not found or incorrect, defaulting to false"%string])
          end in
        let (cloudflareTTL, logged) :=
          match strconv_Atoi (Flags.CloudflareTTL f) with
          | Some n => (n, logged)
          | None =>
              (120%Z,
               logged ++
               ["CloudflareTTL config not found or incorrect, defaulting to 120"%string])
          end in
        Configured logged
          (mkOptions (Flags.UseInternalIP f) (Flags.SkipExternalIP f)
             dnsNames dnsRoots cloudflareTTL cloudflareProxy).

(* ================================================================== *)
(** ** Vocabulary of the properties *)
(* ================================================================== *)

(** The addresses of type [ty] in an address list, in the order listed. *)
Definition addressesOfType (ty : NodeAddressType) (addrs : list NodeAddress)
  : list string :=
  map Address (filter (fun addr => String.eqb (addrType addr) ty) addrs).

(** What one node contributes for address type [ty]: all its addresses of
    that type when it is ready, nothing otherwise. *)
Definition contribution (ty : NodeAddressType) (node : Node) : list string :=
  if nodeIsReady node then addressesOfType ty (Addresses (Status node)) else [].

(** How many times the nodes report [a] as an address of type [ty]: the
    number of address entries of ready nodes that have this type and this
    address string. *)
Definition reported (ty : NodeAddressType) (a : string) (nodes : list Node)
  : nat :=
  list_sum
    (map (fun node =>
            if nodeIsReady node
            then List.length
                   (filter (fun addr => String.eqb (addrType addr) ty
                                        && String.eqb (Address addr) a)
                      (Addresses (Status node)))
            else 0)
       nodes).

(** Some ready node carries an address of type [ty]. *)
Definition someReadyHas (ty : NodeAddressType) (nodes : list Node) : Prop :=
  exists node addr,
    In node nodes /\ nodeIsReady node = true /\
    In addr (Addresses (Status node)) /\ addrType addr = ty.

(** An address string that is not empty and holds no comma, as every
    textual IPv4 or IPv6 address is. *)
Fixpoint hasComma (s : string) : bool :=
  match s with
  | EmptyString => false
  | String c rest => Ascii.eqb c ","%char || hasComma rest
  end.

Definition plain (s : string) : Prop := s <> EmptyString /\ hasComma s = false.

(** What [joinRest ","] returns: nothing, or a string that starts with the
    separator. *)
Definition sepTail (r : string) : Prop :=
  r = EmptyString \/ exists r', r = String ","%char r'.

(** The pass compared its desired set with the stored one and found the
    comma-joined strings equal. *)
Definition sameJoin (ips last : list string) : Prop :=
  strings_Join ips "," = strings_Join last ",".

Definition sameJoin_dec (ips last : list string)
  : {sameJoin ips last} + {~ sameJoin ips last} :=
  string_dec (strings_Join ips ",") (strings_Join last ",").

(** Credentials are present: a token, or an email with a key. *)
Definition hasCredentials (f : Flags.options) : Prop :=
  Flags.CloudflareAPIToken f <> EmptyString
  \/ (Flags.CloudflareAPIEmail f <> EmptyString
      /\ Flags.CloudflareAPIKey f <> EmptyString).

(** No two [sync] calls in a row carry sets with the same joined string. *)
Fixpoint adjacentDiffer (calls : list (list string)) : Prop :=
  match calls with
  | a :: (b :: _) as rest => ~ sameJoin a b /\ adjacentDiffer rest
  | _ => True
  end.

(** Some byte of the string is neither a decimal digit nor a sign. *)
Fixpoint hasForeignByte (s : string) : bool :=
  match s with
  | EmptyString => false
  | String c rest =>
      match digitOf c with
      | Some _ => hasForeignByte rest
      | None =>
          negb (Ascii.eqb c "-"%char || Ascii.eqb c "+"%char)
          || hasForeignByte rest
      end
  end.

(** A string of decimal digits only. *)
Fixpoint allDigits (s : string) : bool :=
  match s with
  | EmptyString => true
  | String c rest =>
      match digitOf c with Some _ => allDigits rest | None => false end
  end.

(** Flags that pass the three start-up checks. *)
Module SampleFlags.

Definition base : Flags.options :=
  Flags.mkFlags "" "" "secret-token" "" "" "nodes.example.com"
    "example.com" false false "".

Definition withNames (names : string) : Flags.options :=
  Flags.mkFlags "" "" "secret-token" "" "" names "example.com" false false "".

Definition withTTL (ttl : string) : Flags.options :=
  Flags.mkFlags "ops@example.com" "secret-key" "" "yes" ttl
    "a.example.com,b.example.com" "example.com,example.org" true false "".

End SampleFlags.

(* ================================================================== *)
(** ** Sample clusters *)
(* ================================================================== *)

Module Sample.

Definition ready : list NodeCondition :=
  [mkCond NodeMemoryPressure ConditionFalse; mkCond NodeReady ConditionTrue].
Definition notReady : list NodeCondition :=
  [mkCond NodeReady ConditionFalse].
Definition readyUnknown : list NodeCondition :=
  [mkCond NodeReady ConditionUnknown].

Definition ext (a : string) : NodeAddress := mkAddr NodeExternalIP a.
Definition int (a : string) : NodeAddress := mkAddr NodeInternalIP a.
Definition host (a : string) : NodeAddress := mkAddr NodeHostName a.

Definition node (name : string) (conds : list NodeCondition)
    (addrs : list NodeAddress) : Node :=
  mkNode name (mkStatus conds addrs).

Definition policy (useInternal skipExternal : bool) : Options :=
  mkOptions useInternal skipExternal
    ["nodes.example.com"%string] ["example.com"%string] 120 false.

(** Two ready nodes behind the same external address. *)
Definition twins : list Node :=
  [ node "a" ready [ext "1.2.3.4"; int "10.0.0.1"];
    node "b" ready [ext "1.2.3.4"; int "10.0.0.2"] ].

(** A ready node with addresses of both kinds, a ready node with only
    an internal one, and a node that is not ready. *)
Definition nodeA : Node :=
  node "a" ready [host "a"; int "10.0.0.1"; ext "5.6.7.8"; ext "1.2.3.4"].
Definition nodeB : Node := node "b" ready [int "10.0.0.2"].
Definition nodeC : Node :=
  node "c" notReady [ext "9.9.9.9"; int "10.0.0.3"].

Definition mixed : list Node := [nodeA; nodeB; nodeC].

(** No ready node has an external address. *)
Definition inner : list Node :=
  [ node "b" ready [int "10.0.0.2"; int "10.0.0.1"];
    node "c" readyUnknown [ext "9.9.9.9"; int "10.0.0.3"];
    node "d" [] [ext "8.8.8.8"] ].

(** Stand-ins for [sync] over a provider that holds one list of addresses:
    one that always brings the provider to the desired set, one whose
    provider calls always fail and leave the records as they were. *)
Definition okSync (ips names roots : list string) (ttl : Z) (proxy : bool)
    (records : list string) : list string * error :=
  (ips, None).

Definition failingSync (ips names roots : list string) (ttl : Z) (proxy : bool)
    (records : list string) : list string * error :=
  (records, Some "provider unreachable"%string).

(** A cluster whose only ready node reports one address string that
    holds a comma. *)
Definition glued : list Node :=
  [ node "g" ready [ext "10.0.0.1,10.0.0.2"] ].

Definition apart : list Node :=
  [ node "a" ready [ext "10.0.0.2"]; node "b" ready [ext "10.0.0.1"] ].

End Sample.

(* ================================================================== *)
(** ** The order of [sort.Strings] *)
(* ================================================================== *)

(** [str_le x y]: Go's [!(y < x)]. *)
Definition str_le (x y : string) : Prop := String.ltb y x = false.

(** What holds of the closure's state between passes: the stored set is
    the set of the latest [sync] call, the calls alternate, and the stored
    set is sorted. *)
Definition settled (Provider : Type) (w : World Provider) : Prop :=
  lastIPs w = last (syncCalls (trace w)) []
  /\ adjacentDiffer ([] :: syncCalls (trace w))
  /\ StronglySorted str_le (lastIPs w).

Lemma ltb_lt (x y : string) : String.ltb x y = true <-> String_as_OT.lt x y.
Proof.
  unfold String.ltb. rewrite <- String_as_OT.cmp_lt. unfold String_as_OT.cmp.
  destruct (String.compare x y); split; congruence.
Qed.

Lemma ltb_irrefl (x : string) : String.ltb x x = false.
Proof.
  destruct (String.ltb x x) eqn:E; [|reflexivity].
  apply ltb_lt in E. exfalso. exact (String_as_OT.lt_not_eq x x E eq_refl).
Qed.

Lemma ltb_trans (x y z : string) :
  String.ltb x y = true -> String.ltb y z = true -> String.ltb x z = true.
Proof.
  rewrite !ltb_lt. apply String_as_OT.lt_trans.
Qed.

Lemma ltb_asym (x y : string) : String.ltb x y = true -> String.ltb y x = false.
Proof.
  intros H. destruct (String.ltb y x) eqn:E; [|reflexivity].
  pose proof (ltb_trans _ _ _ H E) as T. rewrite ltb_irrefl in T. discriminate.
Qed.

Lemma ltb_connected (x y : string) :
  String.ltb x y = false -> String.ltb y x = false -> x = y.
Proof.
  unfold String.ltb. rewrite (String.compare_antisym y x).
  destruct (String.compare x y) eqn:E; simpl; try discriminate.
  intros _ _. now apply String.compare_eq_iff.
Qed.

Lemma str_le_refl (x : string) : str_le x x.
Proof. apply ltb_irrefl. Qed.

Lemma str_le_antisym (x y : string) : str_le x y -> str_le y x -> x = y.
Proof. unfold str_le. intros H1 H2. now apply ltb_connected. Qed.

Lemma str_le_trans (x y z : string) : str_le x y -> str_le y z -> str_le x z.
Proof.
  unfold str_le. intros Hxy Hyz.
  destruct (String.ltb z x) eqn:E; [|reflexivity]. exfalso.
  destruct (String.ltb x y) eqn:Exy.
  - rewrite (ltb_trans _ _ _ E Exy) in Hyz. discriminate.
  - assert (x = y) by now apply ltb_connected. subst. congruence.
Qed.

Lemma ltb_le (x y : string) : String.ltb x y = true -> str_le x y.
Proof. apply ltb_asym. Qed.

(* ================================================================== *)
(** ** [sort.Strings] sorts, permutes, and is canonical *)
(* ================================================================== *)

Lemma insert_perm (x : string) (l : list string) :
  Permutation (insert x l) (x :: l).
Proof.
  induction l as [|y l IH]; simpl.
  - reflexivity.
  - destruct (String.ltb x y).
    + reflexivity.
    + rewrite IH. apply perm_swap.
Qed.

Lemma sort_Strings_perm (l : list string) : Permutation (sort_Strings l) l.
Proof.
  induction l as [|x l IH]; simpl.
  - constructor.
  - rewrite insert_perm. now constructor.
Qed.

Lemma insert_sorted (x : string) (l : list string) :
  StronglySorted str_le l -> StronglySorted str_le (insert x l).
Proof.
  induction 1 as [|y l Hs IH Hall]; simpl.
  - repeat constructor.
  - destruct (String.ltb x y) eqn:E.
    + constructor; [now constructor|].
      constructor; [now apply ltb_le|].
      eapply Forall_impl; [|exact Hall].
      intros z Hz. eapply str_le_trans; [apply ltb_le; eassumption|exact Hz].
    + constructor; [exact IH|].
      eapply Permutation_Forall; [symmetry; apply insert_perm|].
      constructor; [exact E|exact Hall].
Qed.

Lemma sort_Strings_sorted (l : list string) :
  StronglySorted str_le (sort_Strings l).
Proof.
  induction l as [|x l IH]; simpl.
  - constructor.
  - now apply insert_sorted.
Qed.

Lemma sorted_head_le (x : string) (l : list string) (y : string) :
  StronglySorted str_le (x :: l) -> In y (x :: l) -> str_le x y.
Proof.
  intros Hs [->|Hin].
  - apply str_le_refl.
  - apply StronglySorted_inv in Hs as [_ Hall].
    rewrite Forall_forall in Hall. now apply Hall.
Qed.

Lemma sorted_perm_unique (l1 l2 : list string) :
  StronglySorted str_le l1 -> StronglySorted str_le l2 ->
  Permutation l1 l2 -> l1 = l2.
Proof.
  revert l2. induction l1 as [|a l1 IH]; intros l2 H1 H2 P.
  - now apply Permutation_nil in P.
  - destruct l2 as [|b l2].
    + symmetry in P. now apply Permutation_nil in P.
    + assert (a = b) as ->.
      { apply str_le_antisym.
        - apply (sorted_head_le H1). apply (Permutation_in _ (Permutation_sym P)).
          now left.
        - apply (sorted_head_le H2). apply (Permutation_in _ P). now left. }
      f_equal. apply IH.
      * now apply StronglySorted_inv in H1.
      * now apply StronglySorted_inv in H2.
      * eapply Permutation_cons_inv; eassumption.
Qed.

Lemma sort_Strings_canonical (l1 l2 : list string) :
  Permutation l1 l2 -> sort_Strings l1 = sort_Strings l2.
Proof.
  intros P. apply sorted_perm_unique; try apply sort_Strings_sorted.
  rewrite !sort_Strings_perm. exact P.
Qed.

(* ================================================================== *)
(** ** The collection loops *)
(* ================================================================== *)

Lemma appendAddresses_spec (ty : NodeAddressType) (addrs : list NodeAddress) :
  forall ips, appendAddresses ty addrs ips = ips ++ addressesOfType ty addrs.
Proof.
  unfold addressesOfType.
  induction addrs as [|addr rest IH]; intros ips; simpl.
  - now rewrite app_nil_r.
  - rewrite IH. destruct (String.eqb (addrType addr) ty); simpl.
    + now rewrite <- app_assoc.
    + reflexivity.
Qed.

Lemma collect_spec (ty : NodeAddressType) (nodes : list Node) :
  forall ips, collect ty nodes ips = ips ++ flat_map (contribution ty) nodes.
Proof.
  induction nodes as [|node rest IH]; intros ips; simpl.
  - now rewrite app_nil_r.
  - rewrite IH. unfold contribution. destruct (nodeIsReady node); simpl.
    + now rewrite appendAddresses_spec, <- app_assoc.
    + reflexivity.
Qed.

Lemma length_zero_nil (A : Type) (l : list A) :
  (List.length l =? 0) = true <-> l = [].
Proof.
  destruct l; simpl; split; intros H; try reflexivity; discriminate.
Qed.

(** The list handed to [sort.Strings], by cases on the policy. *)
Lemma gather_spec (o : Options) (nodes : list Node) :
  gather o nodes =
  let ext := if SkipExternalIP o then []
             else flat_map (contribution NodeExternalIP) nodes in
  if UseInternalIP o && (List.length ext =? 0)
  then flat_map (contribution NodeInternalIP) nodes
  else ext.
Proof.
  unfold gather. cbv zeta.
  destruct (SkipExternalIP o); simpl negb; cbv iota.
  - destruct (UseInternalIP o); simpl; [|reflexivity].
    now rewrite collect_spec.
  - rewrite !collect_spec. simpl app.
    destruct (UseInternalIP o); simpl andb; cbv iota; [|reflexivity].
    destruct (List.length _ =? 0) eqn:E; [|reflexivity].
    apply length_zero_nil in E. rewrite E. reflexivity.
Qed.

Lemma gather_perm (o : Options) (nodes nodes' : list Node) :
  Permutation nodes nodes' -> Permutation (gather o nodes) (gather o nodes').
Proof.
  intros P. rewrite !gather_spec. cbv zeta.
  assert (Pe : forall ty, Permutation (flat_map (contribution ty) nodes)
                            (flat_map (contribution ty) nodes'))
    by (intros ty; now apply Permutation_flat_map).
  destruct (SkipExternalIP o).
  - destruct (UseInternalIP o); simpl; [apply Pe|constructor].
  - rewrite (Permutation_length (Pe NodeExternalIP)).
    destruct (UseInternalIP o && _); apply Pe.
Qed.

Lemma contribution_nonempty (ty : NodeAddressType) (nodes : list Node) :
  flat_map (contribution ty) nodes <> [] <-> someReadyHas ty nodes.
Proof.
  unfold someReadyHas. split.
  - intros H. destruct (flat_map (contribution ty) nodes) as [|a l] eqn:E;
      [congruence|].
    assert (Hin : In a (flat_map (contribution ty) nodes))
      by (rewrite E; now left).
    apply in_flat_map in Hin as (node & Hnode & Ha).
    unfold contribution in Ha. destruct (nodeIsReady node) eqn:R; [|easy].
    unfold addressesOfType in Ha. apply in_map_iff in Ha as (addr & _ & Hf).
    apply filter_In in Hf as [Hin Hty]. apply String.eqb_eq in Hty.
    now exists node, addr.
  - intros (node & addr & Hnode & R & Hin & Hty) E.
    assert (Ha : In (Address addr) (flat_map (contribution ty) nodes)).
    { apply in_flat_map. exists node. split; [exact Hnode|].
      unfold contribution. rewrite R. unfold addressesOfType.
      apply in_map, filter_In. split; [exact Hin|]. now apply String.eqb_eq. }
    rewrite E in Ha. exact Ha.
Qed.

Lemma conditionsReady_true (conds : list NodeCondition) :
  conditionsReady conds = true <->
  exists c, In c conds /\ condType c = NodeReady /\ condStatus c = ConditionTrue.
Proof.
  induction conds as [|c rest IH]; simpl.
  - split; [discriminate|]. now intros (c & [] & _).
  - destruct (String.eqb (condType c) NodeReady) eqn:Et;
      destruct (String.eqb (condStatus c) ConditionTrue) eqn:Es; simpl;
      try (rewrite IH; split;
           [ intros (c' & Hin & H); exists c'; auto
           | intros (c' & [<-|Hin] & Ht & Hs);
             [ apply String.eqb_neq in Et || apply String.eqb_neq in Es;
               congruence
             | exists c'; auto ] ]).
    split; [intros _|reflexivity].
    exists c. apply String.eqb_eq in Et, Es. auto.
Qed.

(* ================================================================== *)
(** ** Properties of the aggregation step *)
(* ================================================================== *)

Example aggregate_mixed :
  aggregate (Sample.policy true false) Sample.mixed
  = ["1.2.3.4"; "5.6.7.8"]%string.
Proof. reflexivity. Qed.

Example aggregate_inner :
  aggregate (Sample.policy true false) Sample.inner
  = ["10.0.0.1"; "10.0.0.2"]%string.
Proof. reflexivity. Qed.

Example aggregate_twins :
  aggregate (Sample.policy false false) Sample.twins
  = ["1.2.3.4"; "1.2.3.4"]%string.
Proof. reflexivity. Qed.

(** C2, as stated, fails: two ready nodes that report the same external
    address give a desired set in which that address occurs twice, so the
    set is not both sorted and free of duplicates. *)
Lemma aggregate_keeps_duplicates :
  ~ (StronglySorted str_le (aggregate (Sample.policy false false) Sample.twins)
     /\ NoDup (aggregate (Sample.policy false false) Sample.twins)).
Proof.
  rewrite aggregate_twins. intros [_ H].
  apply NoDup_cons_iff in H as [H _]. apply H. now left.
Qed.

Lemma aggregate_count (o : Options) (nodes : list Node) (a : string) :
  count_occ string_dec (aggregate o nodes) a
  = count_occ string_dec (gather o nodes) a.
Proof.
  unfold aggregate. apply Permutation_count_occ, sort_Strings_perm.
Qed.

Lemma count_addressesOfType (ty : NodeAddressType)
    (addrs : list NodeAddress) (a : string) :
  count_occ string_dec (addressesOfType ty addrs) a
  = List.length
      (filter (fun addr => String.eqb (addrType addr) ty
                           && String.eqb (Address addr) a) addrs).
Proof.
  unfold addressesOfType. induction addrs as [|addr rest IH]; simpl.
  - reflexivity.
  - destruct (String.eqb (addrType addr) ty); simpl; [|exact IH].
    destruct (string_dec (Address addr) a) as [E|N].
    + apply String.eqb_eq in E. rewrite E. simpl. now rewrite IH.
    + apply String.eqb_neq in N. rewrite N. exact IH.
Qed.

Lemma count_contributions (ty : NodeAddressType) (nodes : list Node)
    (a : string) :
  count_occ string_dec (flat_map (contribution ty) nodes) a
  = reported ty a nodes.
Proof.
  unfold reported. induction nodes as [|node rest IH]; simpl.
  - reflexivity.
  - rewrite count_occ_app, IH. unfold contribution.
    destruct (nodeIsReady node); simpl.
    + now rewrite count_addressesOfType.
    + reflexivity.
Qed.

(** C2, amended: for every node list and policy the desired set is sorted
    in increasing string order and nothing is deduplicated: each address
    string occurs in it exactly as many times as the ready nodes report
    it as an address of the selected type. The selected type is external
    when external addresses are not skipped and some ready node has one;
    otherwise internal when internal addresses are enabled; otherwise
    the desired set is empty. So an address string that two ready nodes
    report, or that one ready node lists twice, occurs twice. *)
Theorem aggregate_sorted_multiset (o : Options) (nodes : list Node) :
  StronglySorted str_le (aggregate o nodes)
  /\ (SkipExternalIP o = false -> someReadyHas NodeExternalIP nodes ->
      forall a, count_occ string_dec (aggregate o nodes) a
                = reported NodeExternalIP a nodes)
  /\ (UseInternalIP o = true ->
      SkipExternalIP o = true \/ ~ someReadyHas NodeExternalIP nodes ->
      forall a, count_occ string_dec (aggregate o nodes) a
                = reported NodeInternalIP a nodes)
  /\ (UseInternalIP o = false ->
      SkipExternalIP o = true \/ ~ someReadyHas NodeExternalIP nodes ->
      aggregate o nodes = []).
Proof.
  split; [apply sort_Strings_sorted|].
  assert (Hnone : ~ someReadyHas NodeExternalIP nodes ->
                  flat_map (contribution NodeExternalIP) nodes = []).
  { intros N. destruct (flat_map (contribution NodeExternalIP) nodes) eqn:E;
      [reflexivity|].
    exfalso. apply N, contribution_nonempty. rewrite E. discriminate. }
  split; [|split].
  - intros Hs Hsome a. rewrite aggregate_count, gather_spec, Hs. cbv zeta.
    apply contribution_nonempty in Hsome.
    destruct (List.length _ =? 0) eqn:E.
    + apply length_zero_nil in E. contradiction.
    + rewrite andb_false_r. apply count_contributions.
  - intros Hu Hcase a. rewrite aggregate_count, gather_spec, Hu. cbv zeta.
    destruct Hcase as [Hs|N].
    + rewrite Hs. simpl. apply count_contributions.
    + destruct (SkipExternalIP o); simpl; [apply count_contributions|].
      rewrite (Hnone N). simpl. apply count_contributions.
  - intros Hu Hcase. unfold aggregate. rewrite gather_spec, Hu. cbv zeta.
    destruct Hcase as [Hs|N].
    + rewrite Hs. reflexivity.
    + destruct (SkipExternalIP o); simpl; [reflexivity|].
      rewrite (Hnone N). reflexivity.
Qed.

Lemma aggregate_sorted_multiset_witness :
  count_occ string_dec
    (aggregate (Sample.policy false false) Sample.twins) "1.2.3.4"%string = 2
  /\ count_occ string_dec
       (aggregate (Sample.policy true false) Sample.inner) "10.0.0.1"%string
     = 1
  /\ aggregate (Sample.policy false true) Sample.mixed = [].
Proof.
  split; [|split].
  - rewrite (proj1 (proj2 (aggregate_sorted_multiset
                             (Sample.policy false false) Sample.twins))
               eq_refl).
    + reflexivity.
    + apply contribution_nonempty. discriminate.
  - rewrite (proj1 (proj2 (proj2 (aggregate_sorted_multiset
                                    (Sample.policy true false) Sample.inner)))
               eq_refl).
    + reflexivity.
    + right. intros H. apply contribution_nonempty in H. now apply H.
  - apply (proj2 (proj2 (proj2 (aggregate_sorted_multiset
                                  (Sample.policy false true) Sample.mixed)))
             eq_refl).
    left. reflexivity.
Defined.

(** C5: with [useInternal] set and [skipExternal] unset, the desired set
    is the sorted external addresses of the ready nodes as soon as one
    ready node has an external address, and the sorted internal addresses
    of the ready nodes exactly when none has. *)
Theorem external_before_internal (o : Options) (nodes : list Node) :
  UseInternalIP o = true -> SkipExternalIP o = false ->
  (someReadyHas NodeExternalIP nodes ->
   aggregate o nodes
   = sort_Strings (flat_map (contribution NodeExternalIP) nodes))
  /\ (~ someReadyHas NodeExternalIP nodes ->
      aggregate o nodes
      = sort_Strings (flat_map (contribution NodeInternalIP) nodes)).
Proof.
  intros Hu Hs. unfold aggregate. rewrite gather_spec, Hu, Hs. cbv zeta.
  simpl andb. split; intros H.
  - apply contribution_nonempty in H.
    destruct (List.length _ =? 0) eqn:E; [|reflexivity].
    apply length_zero_nil in E. contradiction.
  - destruct (List.length _ =? 0) eqn:E; [reflexivity|].
    exfalso. apply H, contribution_nonempty. intros N.
    apply length_zero_nil in N. congruence.
Qed.

Lemma external_before_internal_witness :
  aggregate (Sample.policy true false) Sample.mixed
  = ["1.2.3.4"; "5.6.7.8"]%string
  /\ aggregate (Sample.policy true false) Sample.inner
     = ["10.0.0.1"; "10.0.0.2"]%string.
Proof.
  split.
  - rewrite (proj1 (@external_before_internal (Sample.policy true false)
                      Sample.mixed eq_refl eq_refl)).
    + reflexivity.
    + exists Sample.nodeA, (Sample.ext "5.6.7.8").
      simpl. repeat split; auto.
  - rewrite (proj2 (@external_before_internal (Sample.policy true false)
                      Sample.inner eq_refl eq_refl)).
    + reflexivity.
    + intros H. apply contribution_nonempty in H. now apply H.
Defined.

(** C6: the desired set does not depend on the order in which the lister
    returns the nodes. *)
Theorem aggregate_order_independent (o : Options) (nodes nodes' : list Node) :
  Permutation nodes nodes' -> aggregate o nodes = aggregate o nodes'.
Proof.
  intros P. unfold aggregate. now apply sort_Strings_canonical, gather_perm.
Qed.

Lemma aggregate_order_independent_witness :
  Permutation Sample.mixed (rev Sample.mixed)
  /\ aggregate (Sample.policy true false) Sample.mixed
     = aggregate (Sample.policy true false) (rev Sample.mixed).
Proof.
  assert (P : Permutation Sample.mixed (rev Sample.mixed))
    by apply Permutation_rev.
  split; [exact P|].
  exact (@aggregate_order_independent (Sample.policy true false) _ _ P).
Defined.

(* ================================================================== *)
(** ** Readiness gating *)
(* ================================================================== *)

Lemma nodeIsReady_false (node : Node) :
  (forall c, In c (Conditions (Status node)) ->
             condType c = NodeReady -> condStatus c <> ConditionTrue) ->
  nodeIsReady node = false.
Proof.
  intros H. unfold nodeIsReady.
  destruct (conditionsReady _) eqn:E; [|reflexivity].
  apply conditionsReady_true in E as (c & Hin & Ht & Hs).
  now destruct (H c Hin Ht).
Qed.

Lemma gather_skips_unready (o : Options) (node : Node)
    (before after : list Node) :
  nodeIsReady node = false ->
  gather o (before ++ node :: after) = gather o (before ++ after).
Proof.
  intros R. rewrite !gather_spec, !flat_map_app. simpl flat_map.
  unfold contribution at 2 5. now rewrite R.
Qed.

Lemma count_contribution (ty : NodeAddressType) (node : Node)
    (nodes : list Node) (a : string) :
  In node nodes ->
  count_occ string_dec (contribution ty node) a
  <= count_occ string_dec (flat_map (contribution ty) nodes) a.
Proof.
  intros Hin. apply in_split in Hin as (l1 & l2 & ->).
  rewrite flat_map_app. simpl. rewrite !count_occ_app. lia.
Qed.

(** C7: a node none of whose conditions is a true-valued ready condition
    (it has no ready condition at all, or its ready condition is false or
    unknown) adds nothing to the desired set, whatever addresses it
    carries; a ready node adds every one of its addresses of the type the
    pass selects, each as often as the node lists it. *)
Theorem readiness_gating (o : Options) (idle busy : Node)
    (before after nodes : list Node) :
  (forall c, In c (Conditions (Status idle)) ->
             condType c = NodeReady -> condStatus c <> ConditionTrue) ->
  (exists c, In c (Conditions (Status busy)) /\
             condType c = NodeReady /\ condStatus c = ConditionTrue) ->
  In busy nodes ->
  aggregate o (before ++ idle :: after) = aggregate o (before ++ after)
  /\ (SkipExternalIP o = false ->
      forall a,
        count_occ string_dec
          (addressesOfType NodeExternalIP (Addresses (Status busy))) a
        <= count_occ string_dec (aggregate o nodes) a)
  /\ (UseInternalIP o = true ->
      SkipExternalIP o = true \/ ~ someReadyHas NodeExternalIP nodes ->
      forall a,
        count_occ string_dec
          (addressesOfType NodeInternalIP (Addresses (Status busy))) a
        <= count_occ string_dec (aggregate o nodes) a).
Proof.
  intros Hidle Hbusy Hin.
  apply nodeIsReady_false in Hidle.
  apply conditionsReady_true in Hbusy. fold (nodeIsReady busy) in Hbusy.
  assert (Hc : forall ty a,
             count_occ string_dec (addressesOfType ty (Addresses (Status busy))) a
             <= count_occ string_dec (flat_map (contribution ty) nodes) a).
  { intros ty a. pose proof (count_contribution ty busy nodes a Hin) as H.
    unfold contribution at 1 in H. now rewrite Hbusy in H. }
  split; [unfold aggregate; now rewrite gather_skips_unready|].
  split.
  - intros Hs a.
    rewrite aggregate_count.
    rewrite gather_spec, Hs. cbv zeta.
    destruct (UseInternalIP o && _) eqn:E; [|apply Hc].
    apply andb_prop in E as [_ E]. apply length_zero_nil in E.
    specialize (Hc NodeExternalIP a). rewrite E in Hc. simpl in Hc. lia.
  - intros Hu Hcase a.
    rewrite aggregate_count.
    rewrite gather_spec, Hu. cbv zeta. simpl andb.
    destruct Hcase as [Hs|Hnone].
    + rewrite Hs. simpl. apply Hc.
    + destruct (SkipExternalIP o); [simpl; apply Hc|].
      destruct (List.length _ =? 0) eqn:E; [apply Hc|].
      exfalso. apply Hnone, contribution_nonempty. intros N.
      apply length_zero_nil in N. congruence.
Qed.

Lemma readiness_gating_witness :
  aggregate (Sample.policy true false)
    ([Sample.nodeA; Sample.nodeB] ++ Sample.nodeC :: [])
  = aggregate (Sample.policy true false) ([Sample.nodeA; Sample.nodeB] ++ [])
  /\ 1 <= count_occ string_dec
            (aggregate (Sample.policy true false) Sample.mixed) "5.6.7.8"%string
  /\ 1 <= count_occ string_dec
            (aggregate (Sample.policy true true) Sample.mixed) "10.0.0.1"%string.
Proof.
  assert (Hidle : forall c, In c (Conditions (Status Sample.nodeC)) ->
                            condType c = NodeReady -> condStatus c <> ConditionTrue).
  { intros c [<-|[]] _. discriminate. }
  assert (Hbusy : exists c, In c (Conditions (Status Sample.nodeA)) /\
                            condType c = NodeReady /\ condStatus c = ConditionTrue).
  { exists (mkCond NodeReady ConditionTrue). simpl. auto. }
  assert (Hin : In Sample.nodeA Sample.mixed) by (left; reflexivity).
  split; [|split].
  - exact (proj1 (@readiness_gating (Sample.policy true false) _ _
                    [Sample.nodeA; Sample.nodeB] [] _ Hidle Hbusy Hin)).
  - exact (proj1 (proj2 (@readiness_gating (Sample.policy true false) _ _
                           [] [] _ Hidle Hbusy Hin))
             eq_refl "5.6.7.8"%string).
  - exact (proj2 (proj2 (@readiness_gating (Sample.policy true true) _ _
                           [] [] _ Hidle Hbusy Hin))
             eq_refl (or_introl eq_refl) "10.0.0.1"%string).
Defined.

(* ================================================================== *)
(** ** [strings.Join] on plain addresses *)
(* ================================================================== *)

Lemma joinRest_sepTail (l : list string) : sepTail (joinRest "," l).
Proof.
  destruct l as [|s l]; [now left|right]. simpl. eauto.
Qed.

Lemma sepTail_head (c : ascii) (r : string) :
  sepTail (String c r) -> c = ","%char.
Proof. intros [H|[r' H]]; congruence. Qed.

Lemma append_split (a b r1 r2 : string) :
  hasComma a = false -> hasComma b = false -> sepTail r1 -> sepTail r2 ->
  String.append a r1 = String.append b r2 -> a = b /\ r1 = r2.
Proof.
  revert b. induction a as [|c a IH]; intros [|d b] Ha Hb T1 T2 E; simpl in *.
  - now split.
  - exfalso. subst r1. apply sepTail_head in T1. subst d.
    simpl in Hb. discriminate.
  - exfalso. subst r2. apply sepTail_head in T2. subst c.
    simpl in Ha. discriminate.
  - injection E as -> E. apply orb_false_elim in Ha as [_ Ha].
    apply orb_false_elim in Hb as [_ Hb].
    destruct (IH b Ha Hb T1 T2 E) as [-> ->]. now split.
Qed.

Lemma joinRest_injective (l1 l2 : list string) :
  Forall plain l1 -> Forall plain l2 ->
  joinRest "," l1 = joinRest "," l2 -> l1 = l2.
Proof.
  revert l2. induction l1 as [|s1 l1 IH]; intros [|s2 l2] P1 P2 E;
    simpl in E; try discriminate; [reflexivity|].
  injection E as E. inversion_clear P1 as [|? ? [_ C1] P1'].
  inversion_clear P2 as [|? ? [_ C2] P2'].
  destruct (append_split _ _ C1 C2 (joinRest_sepTail l1) (joinRest_sepTail l2) E)
    as [-> E'].
  f_equal. now apply IH.
Qed.

Lemma strings_Join_injective (l1 l2 : list string) :
  Forall plain l1 -> Forall plain l2 ->
  strings_Join l1 "," = strings_Join l2 "," -> l1 = l2.
Proof.
  intros P1 P2 E. destruct l1 as [|s1 l1], l2 as [|s2 l2]; simpl in E.
  - reflexivity.
  - exfalso. inversion_clear P2 as [|? ? [N _] _].
    destruct s2; [now apply N|discriminate].
  - exfalso. inversion_clear P1 as [|? ? [N _] _].
    destruct s1; [now apply N|discriminate].
  - inversion_clear P1 as [|? ? [_ C1] P1'].
    inversion_clear P2 as [|? ? [_ C2] P2'].
    destruct (append_split _ _ C1 C2 (joinRest_sepTail l1) (joinRest_sepTail l2) E)
      as [-> E'].
    f_equal. now apply joinRest_injective.
Qed.

(* ================================================================== *)
(** ** One pass of [resync] *)
(* ================================================================== *)

Lemma syncCalls_app (tr1 tr2 : list event) :
  syncCalls (tr1 ++ tr2) = syncCalls tr1 ++ syncCalls tr2.
Proof.
  induction tr1 as [|e tr1 IH]; simpl; [reflexivity|].
  destruct e; simpl; now rewrite IH.
Qed.

Lemma syncCalls_logErr (mk : string -> event) (err : error) (tr : list event) :
  (forall e, syncCalls [mk e] = []) ->
  syncCalls (logErr mk err tr) = syncCalls tr.
Proof.
  intros H. destruct err as [e|]; simpl; [|reflexivity].
  now rewrite syncCalls_app, H, app_nil_r.
Qed.

Section ResyncFacts.

Variable Provider : Type.
Variable sync :
  list string -> list string -> list string -> Z -> bool ->
  Provider -> Provider * error.
Variable o : Options.

Let syncOf (ips : list string) (p : Provider) : Provider * error :=
  sync ips (dnsNames o) (dnsRoots o) (cloudflareTTL o) (cloudflareProxy o) p.

Lemma resync_unchanged (nodes : list Node) (err : error) (w : World Provider) :
  sameJoin (aggregate o nodes) (lastIPs w) ->
  lastIPs (resync sync o (nodes, err) w) = lastIPs w
  /\ provider (resync sync o (nodes, err) w) = provider w
  /\ syncCalls (trace (resync sync o (nodes, err) w)) = syncCalls (trace w)
  /\ last (trace (resync sync o (nodes, err) w)) LogResyncing = LogNoChange.
Proof.
  unfold sameJoin. intros E. unfold resync.
  apply String.eqb_eq in E. rewrite E. simpl.
  repeat split.
  - rewrite !syncCalls_app, syncCalls_logErr by reflexivity.
    rewrite syncCalls_app. simpl. now rewrite !app_nil_r.
  - apply last_last.
Qed.

Lemma resync_changed (nodes : list Node) (err : error) (w : World Provider) :
  ~ sameJoin (aggregate o nodes) (lastIPs w) ->
  lastIPs (resync sync o (nodes, err) w) = aggregate o nodes
  /\ provider (resync sync o (nodes, err) w)
     = fst (syncOf (aggregate o nodes) (provider w))
  /\ syncCalls (trace (resync sync o (nodes, err) w))
     = syncCalls (trace w) ++ [aggregate o nodes]
  /\ trace (resync sync o (nodes, err) w)
     = logErr LogFailedToSync (snd (syncOf (aggregate o nodes) (provider w)))
         ((logErr LogFailedToListNodes err (trace w ++ [LogResyncing])
           ++ [LogIPs (aggregate o nodes)])
          ++ [CallSync (aggregate o nodes) (dnsNames o) (dnsRoots o)
                (cloudflareTTL o) (cloudflareProxy o)]).
Proof.
  unfold sameJoin, syncOf. intros E. unfold resync.
  apply String.eqb_neq in E. rewrite E.
  destruct (sync _ _ _ _ _ _) as [p' e']. simpl.
  repeat split.
  rewrite syncCalls_logErr by reflexivity.
  rewrite !syncCalls_app, syncCalls_logErr by reflexivity.
  rewrite syncCalls_app. simpl. now rewrite !app_nil_r.
Qed.

End ResyncFacts.

(* ================================================================== *)
(** ** A failed node listing *)
(* ================================================================== *)

Lemma aggregate_nil (o : Options) : aggregate o [] = [].
Proof.
  unfold aggregate. rewrite gather_spec. simpl.
  now destruct (SkipExternalIP o), (UseInternalIP o).
Qed.

(** The listing error changes nothing but one log line: the pass goes on
    with whatever slice the lister returned. *)
Lemma resync_ignores_list_error (Provider : Type)
    (sync : list string -> list string -> list string -> Z -> bool ->
            Provider -> Provider * error)
    (o : Options) (nodes : list Node) (e : string) (w : World Provider) :
  lastIPs (resync sync o (nodes, Some e) w)
  = lastIPs (resync sync o (nodes, None) w)
  /\ provider (resync sync o (nodes, Some e) w)
     = provider (resync sync o (nodes, None) w)
  /\ syncCalls (trace (resync sync o (nodes, Some e) w))
     = syncCalls (trace (resync sync o (nodes, None) w)).
Proof.
  destruct (sameJoin_dec (aggregate o nodes) (lastIPs w)) as [E|E].
  - destruct (@resync_unchanged _ sync o nodes (Some e) w E) as (-> & -> & -> & _).
    destruct (@resync_unchanged _ sync o nodes None w E) as (-> & -> & -> & _).
    now repeat split.
  - destruct (@resync_changed _ sync o nodes (Some e) w E) as (-> & -> & -> & _).
    destruct (@resync_changed _ sync o nodes None w E) as (-> & -> & -> & _).
    now repeat split.
Qed.

(** C1 (the code departs from it): with ["1.2.3.4"] stored, a pass whose
    node listing fails and returns no node is not abandoned. It logs the
    failure, aggregates the empty slice, finds it different from the
    stored set, overwrites the stored set with the empty one and calls
    [sync] with no address. *)
Theorem list_error_pass_goes_on (Provider : Type)
    (sync : list string -> list string -> list string -> Z -> bool ->
            Provider -> Provider * error)
    (o : Options) (p : Provider) :
  let w := mkWorld ["1.2.3.4"%string] p [] in
  let w' := resync sync o ([], Some "connection refused"%string) w in
  lastIPs w' = []
  /\ syncCalls (trace w') = [[]]
  /\ provider w'
     = fst (sync [] (dnsNames o) (dnsRoots o) (cloudflareTTL o)
              (cloudflareProxy o) p)
  /\ firstn 4 (trace w')
     = [ LogResyncing; LogFailedToListNodes "connection refused";
         LogIPs []; CallSync [] (dnsNames o) (dnsRoots o) (cloudflareTTL o)
                      (cloudflareProxy o) ].
Proof.
  cbv zeta.
  assert (E : ~ sameJoin (aggregate o [])
                (lastIPs (mkWorld ["1.2.3.4"%string] p [])))
    by (rewrite aggregate_nil; discriminate).
  destruct (@resync_changed _ sync o [] (Some "connection refused"%string) _ E)
    as (H1 & H2 & H3 & H4).
  rewrite H1, H2, H3, H4, !aggregate_nil. simpl.
  repeat split. destruct (snd (sync [] _ _ _ _ p)); reflexivity.
Qed.

(* ================================================================== *)
(** ** Change detection *)
(* ================================================================== *)

(** C3, as stated, fails: after a pass that stored ["10.0.0.1"; "10.0.0.2"],
    a pass whose desired set is the different list ["10.0.0.1,10.0.0.2"]
    neither stores the new set nor calls [sync]. *)
Lemma differing_set_not_reconciled :
  let o := Sample.policy false false in
  let w1 := resync Sample.okSync o (Sample.apart, None) (initial []) in
  let w2 := resync Sample.okSync o (Sample.glued, None) w1 in
  aggregate o Sample.glued <> lastIPs w1
  /\ lastIPs w2 = lastIPs w1
  /\ lastIPs w2 <> aggregate o Sample.glued
  /\ syncCalls (trace w2) = syncCalls (trace w1).
Proof.
  vm_compute. repeat split; discriminate.
Qed.

(** C3, amended: the pass compares the comma-joined desired set with the
    comma-joined stored set (initially empty). When the joined strings are
    equal (as they are when the sets are equal) the stored set and the
    provider are left as they were and [sync] is not called; when they
    differ the new set is stored and [sync] is called once with it. Sets
    of plain addresses (non-empty, comma-free) that differ have different
    joined strings, so for them the pass reconciles whenever the set
    changed. A second pass yielding the same desired set never calls
    [sync]: the two passes together call it once if the first one found a
    different joined string, and not at all otherwise. *)
Theorem change_detection (Provider : Type)
    (sync : list string -> list string -> list string -> Z -> bool ->
            Provider -> Provider * error)
    (o : Options) (w : World Provider) (nodes : list Node) (err : error) :
  let ips := aggregate o nodes in
  let w' := resync sync o (nodes, err) w in
  (sameJoin ips (lastIPs w) ->
   lastIPs w' = lastIPs w /\ provider w' = provider w
   /\ syncCalls (trace w') = syncCalls (trace w))
  /\ (ips = lastIPs w -> sameJoin ips (lastIPs w))
  /\ (~ sameJoin ips (lastIPs w) ->
      lastIPs w' = ips /\ syncCalls (trace w') = syncCalls (trace w) ++ [ips])
  /\ (Forall plain ips -> Forall plain (lastIPs w) -> ips <> lastIPs w ->
      lastIPs w' = ips /\ syncCalls (trace w') = syncCalls (trace w) ++ [ips])
  /\ (forall nodes2 err2,
        aggregate o nodes2 = ips ->
        let w'' := resync sync o (nodes2, err2) w' in
        lastIPs w'' = lastIPs w'
        /\ syncCalls (trace w'') = syncCalls (trace w')
        /\ syncCalls (trace w'')
           = syncCalls (trace w)
             ++ (if sameJoin_dec ips (lastIPs w) then [] else [ips])).
Proof.
  cbv zeta.
  assert (Hsame : sameJoin (aggregate o nodes) (lastIPs w) ->
                  lastIPs (resync sync o (nodes, err) w) = lastIPs w
                  /\ provider (resync sync o (nodes, err) w) = provider w
                  /\ syncCalls (trace (resync sync o (nodes, err) w))
                     = syncCalls (trace w)).
  { intros E. destruct (@resync_unchanged _ sync o nodes err w E)
      as (H1 & H2 & H3 & _). auto. }
  assert (Hdiff : ~ sameJoin (aggregate o nodes) (lastIPs w) ->
                  lastIPs (resync sync o (nodes, err) w) = aggregate o nodes
                  /\ syncCalls (trace (resync sync o (nodes, err) w))
                     = syncCalls (trace w) ++ [aggregate o nodes]).
  { intros E. destruct (@resync_changed _ sync o nodes err w E)
      as (H1 & _ & H3 & _). auto. }
  split; [exact Hsame|].
  split; [intros E; unfold sameJoin; now rewrite E|].
  split; [exact Hdiff|].
  split.
  - intros P1 P2 N. apply Hdiff. intros E. apply N.
    now apply strings_Join_injective.
  - intros nodes2 err2 E2.
    assert (S2 : sameJoin (aggregate o nodes2)
                   (lastIPs (resync sync o (nodes, err) w))).
    { rewrite E2. destruct (sameJoin_dec (aggregate o nodes) (lastIPs w)) as [E|E].
      - destruct (Hsame E) as (-> & _). exact E.
      - destruct (Hdiff E) as (-> & _). reflexivity. }
    destruct (@resync_unchanged _ sync o nodes2 err2 _ S2) as (H1 & _ & H3 & _).
    split; [exact H1|]. split; [exact H3|]. rewrite H3.
    destruct (sameJoin_dec (aggregate o nodes) (lastIPs w)) as [E|E].
    + destruct (Hsame E) as (_ & _ & ->). now rewrite app_nil_r.
    + now destruct (Hdiff E) as (_ & ->).
Qed.

Lemma change_detection_witness :
  let o := Sample.policy true false in
  let w0 := initial (Provider := list string) [] in
  let w1 := resync Sample.okSync o (Sample.mixed, None) w0 in
  let w2 := resync Sample.okSync o (rev Sample.mixed, None) w1 in
  (lastIPs w1 = ["1.2.3.4"; "5.6.7.8"]%string
   /\ syncCalls (trace w1) = [["1.2.3.4"; "5.6.7.8"]%string])
  /\ (lastIPs w2 = lastIPs w1
      /\ syncCalls (trace w2) = syncCalls (trace w1)
      /\ syncCalls (trace w2) = [["1.2.3.4"; "5.6.7.8"]%string]).
Proof.
  cbv zeta.
  pose proof (@change_detection _ Sample.okSync (Sample.policy true false)
                (initial []) Sample.mixed None) as H.
  cbv zeta in H. destruct H as (_ & _ & Hdiff & _ & Hagain).
  split.
  - apply Hdiff. discriminate.
  - exact (Hagain (rev Sample.mixed) None eq_refl).
Defined.

(* ================================================================== *)
(** ** A failed [sync] *)
(* ================================================================== *)

(** C4, as stated, fails: the provider is unreachable during the first
    pass, whose [sync] call returns an error; the next pass aggregates the
    same desired set, logs that nothing changed and does not call [sync],
    and the provider still holds its stale record. *)
Lemma failed_sync_skipped_next_pass :
  let o := Sample.policy true false in
  let stale := ["9.9.9.9"%string] in
  let w1 := resync Sample.failingSync o (Sample.mixed, None) (initial stale) in
  let w2 := resync Sample.failingSync o (Sample.mixed, None) w1 in
  last (trace w1) LogResyncing = LogFailedToSync "provider unreachable"
  /\ syncCalls (trace w1) = [aggregate o Sample.mixed]
  /\ syncCalls (trace w2) = syncCalls (trace w1)
  /\ last (trace w2) LogResyncing = LogNoChange
  /\ provider w2 = stale
  /\ provider w2 <> aggregate o Sample.mixed.
Proof.
  vm_compute. repeat split; discriminate.
Qed.

Lemma run_same_join (Provider : Type)
    (sync : list string -> list string -> list string -> Z -> bool ->
            Provider -> Provider * error)
    (o : Options) (target : list string)
    (quiet : list (list Node * error)) :
  Forall (fun listed => sameJoin (aggregate o (fst listed)) target) quiet ->
  forall w : World Provider,
    lastIPs w = target ->
    lastIPs (run sync o quiet w) = target
    /\ provider (run sync o quiet w) = provider w
    /\ syncCalls (trace (run sync o quiet w)) = syncCalls (trace w).
Proof.
  induction 1 as [|[nodes err] rest Hx _ IH]; intros w Hw.
  - unfold run. simpl. auto.
  - change (run sync o ((nodes, err) :: rest) w)
      with (run sync o rest (resync sync o (nodes, err) w)).
    simpl in Hx.
    assert (S : sameJoin (aggregate o nodes) (lastIPs w))
      by (rewrite Hw; exact Hx).
    destruct (@resync_unchanged _ sync o nodes err w S) as (L & P & C & _).
    destruct (IH (resync sync o (nodes, err) w)) as (L' & P' & C').
    + now rewrite L.
    + rewrite L', P', C', P, C. auto.
Qed.

(** C4, amended: when [sync] fails during a pass the error is logged and
    nothing else is done about it; the stored set already is the new
    desired set. Every subsequent pass whose comma-joined desired set
    equals that of the failed pass (in particular one that aggregates the
    same desired set) is skipped as unchanged: however many such passes
    follow, none calls [sync], and the provider stays as the failed call
    left it. The next call of [sync] comes with the first pass whose
    joined desired set differs from the stored one, and carries that
    pass's desired set. *)
Theorem failed_sync_waits_for_change (Provider : Type)
    (sync : list string -> list string -> list string -> Z -> bool ->
            Provider -> Provider * error)
    (o : Options) (w : World Provider) (nodes : list Node) (err : error)
    (p' : Provider) (e : string) :
  ~ sameJoin (aggregate o nodes) (lastIPs w) ->
  sync (aggregate o nodes) (dnsNames o) (dnsRoots o) (cloudflareTTL o)
    (cloudflareProxy o) (provider w) = (p', Some e) ->
  let w1 := resync sync o (nodes, err) w in
  last (trace w1) LogResyncing = LogFailedToSync e
  /\ lastIPs w1 = aggregate o nodes
  /\ provider w1 = p'
  /\ (forall nodes2 err2,
        aggregate o nodes2 = aggregate o nodes ->
        let w2 := resync sync o (nodes2, err2) w1 in
        syncCalls (trace w2) = syncCalls (trace w1)
        /\ last (trace w2) LogResyncing = LogNoChange
        /\ provider w2 = p'
        /\ lastIPs w2 = lastIPs w1)
  /\ (forall nodes2 err2,
        ~ sameJoin (aggregate o nodes2) (aggregate o nodes) ->
        syncCalls (trace (resync sync o (nodes2, err2) w1))
        = syncCalls (trace w1) ++ [aggregate o nodes2])
  /\ (forall quiet : list (list Node * error),
        Forall (fun listed =>
                  sameJoin (aggregate o (fst listed)) (aggregate o nodes))
          quiet ->
        let w2 := run sync o quiet w1 in
        syncCalls (trace w2) = syncCalls (trace w1)
        /\ provider w2 = p'
        /\ lastIPs w2 = aggregate o nodes
        /\ forall nodes3 err3,
             ~ sameJoin (aggregate o nodes3) (aggregate o nodes) ->
             let w3 := resync sync o (nodes3, err3) w2 in
             syncCalls (trace w3)
             = syncCalls (trace w1) ++ [aggregate o nodes3]
             /\ lastIPs w3 = aggregate o nodes3
             /\ provider w3
                = fst (sync (aggregate o nodes3) (dnsNames o) (dnsRoots o)
                         (cloudflareTTL o) (cloudflareProxy o) p')).
Proof.
  intros E Hsync. cbv zeta.
  destruct (@resync_changed _ sync o nodes err w E) as (H1 & H2 & _ & H4).
  rewrite Hsync in H2, H4. cbn [fst snd logErr] in H2, H4.
  split; [rewrite H4; apply last_last|].
  split; [exact H1|]. split; [exact H2|]. split; [|split].
  - intros nodes2 err2 E2.
    assert (S2 : sameJoin (aggregate o nodes2)
                   (lastIPs (resync sync o (nodes, err) w)))
      by (rewrite H1, E2; reflexivity).
    destruct (@resync_unchanged _ sync o nodes2 err2 _ S2) as (L & P & C & T).
    rewrite P, H2. auto.
  - intros nodes2 err2 E2.
    assert (D2 : ~ sameJoin (aggregate o nodes2)
                     (lastIPs (resync sync o (nodes, err) w)))
      by (rewrite H1; exact E2).
    now destruct (@resync_changed _ sync o nodes2 err2 _ D2) as (_ & _ & C & _).
  - intros quiet Hq.
    destruct (@run_same_join _ sync o (aggregate o nodes) quiet Hq
                (resync sync o (nodes, err) w) H1) as (L & P & C).
    rewrite H2 in P.
    split; [exact C|]. split; [exact P|]. split; [exact L|].
    intros nodes3 err3 D3.
    assert (D : ~ sameJoin (aggregate o nodes3)
                    (lastIPs (run sync o quiet (resync sync o (nodes, err) w))))
      by (rewrite L; exact D3).
    destruct (@resync_changed _ sync o nodes3 err3 _ D) as (L3 & P3 & C3 & _).
    rewrite L3, P3, C3, C, P. auto.
Qed.

Lemma failed_sync_waits_for_change_witness :
  let o := Sample.policy true false in
  let w1 := resync Sample.failingSync o (Sample.mixed, None)
              (initial ["9.9.9.9"%string]) in
  let w2 := resync Sample.failingSync o (rev Sample.mixed, None) w1 in
  let quiet :=
    [ (rev Sample.mixed, None);
      ([Sample.node "g" Sample.ready [Sample.ext "1.2.3.4,5.6.7.8"]],
       Some "connection refused"%string);
      (Sample.mixed, None) ] in
  let w3 := run Sample.failingSync o quiet w1 in
  (syncCalls (trace w2) = syncCalls (trace w1)
   /\ last (trace w2) LogResyncing = LogNoChange
   /\ provider w2 = ["9.9.9.9"%string]
   /\ lastIPs w2 = lastIPs w1)
  /\ syncCalls (trace w3) = syncCalls (trace w1)
  /\ provider w3 = ["9.9.9.9"%string]
  /\ syncCalls (trace (resync Sample.failingSync o (Sample.twins, None) w3))
     = syncCalls (trace w1) ++ [["1.2.3.4"; "1.2.3.4"]%string].
Proof.
  cbv zeta.
  assert (E : ~ sameJoin (aggregate (Sample.policy true false) Sample.mixed)
                  (lastIPs (initial ["9.9.9.9"%string])))
    by discriminate.
  pose proof (@failed_sync_waits_for_change _ Sample.failingSync
                (Sample.policy true false) (initial ["9.9.9.9"%string])
                Sample.mixed None ["9.9.9.9"%string]
                "provider unreachable"%string E eq_refl) as H.
  cbv zeta in H. destruct H as (_ & _ & _ & Hsame & _ & Hrun).
  split; [exact (Hsame (rev Sample.mixed) None eq_refl)|].
  destruct (Hrun
              [ (rev Sample.mixed, None);
                ([Sample.node "g" Sample.ready
                    [Sample.ext "1.2.3.4,5.6.7.8"]],
                 Some "connection refused"%string);
                (Sample.mixed, None) ])
    as (C & P & _ & Hnext).
  - repeat constructor.
  - split; [exact C|]. split; [exact P|].
    destruct (Hnext Sample.twins None) as (C3 & _).
    + discriminate.
    + exact C3.
Defined.

(* ================================================================== *)
(** ** Passes that start from the empty stored set *)
(* ================================================================== *)

Lemma aggregate_no_ready (o : Options) (nodes : list Node) :
  (forall node, In node nodes -> nodeIsReady node = false) ->
  aggregate o nodes = [].
Proof.
  intros H.
  assert (F : forall ty, flat_map (contribution ty) nodes = []).
  { intros ty. induction nodes as [|n rest IH]; simpl; [reflexivity|].
    unfold contribution at 1. rewrite (H n (or_introl eq_refl)). simpl.
    apply IH. intros node Hin. apply H. now right. }
  unfold aggregate. rewrite gather_spec, !F. simpl.
  now destruct (SkipExternalIP o), (UseInternalIP o).
Qed.

(** C9: started from the initial (empty) stored set, a pass whose desired
    set is empty finds nothing changed and does not call [sync]; the same
    holds for every further pass as long as all desired sets so far were
    empty, so the provider is left exactly as it was found. *)
Theorem empty_first_pass_never_syncs (Provider : Type)
    (sync : list string -> list string -> list string -> Z -> bool ->
            Provider -> Provider * error)
    (o : Options) (p : Provider) (passes : list (list Node * error)) :
  Forall (fun listed => aggregate o (fst listed) = []) passes ->
  lastIPs (run sync o passes (initial p)) = []
  /\ provider (run sync o passes (initial p)) = p
  /\ syncCalls (trace (run sync o passes (initial p))) = [].
Proof.
  intros H.
  assert (G : forall w : World Provider,
             lastIPs w = [] ->
             lastIPs (run sync o passes w) = []
             /\ provider (run sync o passes w) = provider w
             /\ syncCalls (trace (run sync o passes w)) = syncCalls (trace w)).
  { induction H as [|[nodes err] rest Hx _ IH]; intros w Hw.
    - unfold run. simpl. auto.
    - change (run sync o ((nodes, err) :: rest) w)
        with (run sync o rest (resync sync o (nodes, err) w)).
      simpl in Hx.
      assert (S : sameJoin (aggregate o nodes) (lastIPs w))
        by (rewrite Hx, Hw; reflexivity).
      destruct (@resync_unchanged _ sync o nodes err w S) as (L & P & C & _).
      destruct (IH (resync sync o (nodes, err) w)) as (L' & P' & C').
      + now rewrite L.
      + rewrite L', P', C', P, C. auto. }
  apply (G (initial p)). reflexivity.
Qed.

Lemma empty_first_pass_never_syncs_witness :
  let passes := [ ([], None); ([Sample.nodeC], None);
                  ([], Some "connection refused"%string) ] in
  lastIPs (run Sample.okSync (Sample.policy true false) passes
             (initial ["9.9.9.9"%string])) = []
  /\ provider (run Sample.okSync (Sample.policy true false) passes
                 (initial ["9.9.9.9"%string])) = ["9.9.9.9"%string]
  /\ syncCalls (trace (run Sample.okSync (Sample.policy true false) passes
                         (initial ["9.9.9.9"%string]))) = [].
Proof.
  cbv zeta.
  apply (@empty_first_pass_never_syncs _ Sample.okSync
           (Sample.policy true false) ["9.9.9.9"%string]).
  apply Forall_cons; [apply aggregate_nil|].
  apply Forall_cons;
    [apply aggregate_no_ready; intros node [<-|[]]; reflexivity|].
  apply Forall_cons; [apply aggregate_nil|apply Forall_nil].
Defined.

(* ================================================================== *)
(** ** Comparison by joined string *)
(* ================================================================== *)

(** C10: a pass is suppressed exactly when the comma-joined desired set
    equals the comma-joined stored set, and that is not list equality:
    the sets ["a"; "b"] and ["a,b"] differ and have the same joined
    string, so a pass yielding ["a,b"] right after one that stored
    ["a"; "b"] is suppressed as unchanged. *)
Theorem join_comparison_conflates :
  (forall (Provider : Type)
          (sync : list string -> list string -> list string -> Z -> bool ->
                  Provider -> Provider * error)
          (o : Options) (w : World Provider) (listed : list Node * error),
      syncCalls (trace (resync sync o listed w)) = syncCalls (trace w)
      <-> strings_Join (aggregate o (fst listed)) ","
          = strings_Join (lastIPs w) ",")
  /\ exists first second : list Node,
       let o := Sample.policy false false in
       aggregate o first = ["a"; "b"]%string
       /\ aggregate o second = ["a,b"]%string
       /\ aggregate o first <> aggregate o second
       /\ strings_Join (aggregate o first) "," = strings_Join (aggregate o second) ","
       /\ forall (Provider : Type)
                 (sync : list string -> list string -> list string -> Z -> bool ->
                         Provider -> Provider * error)
                 (p : Provider),
            let w1 := resync sync o (first, None) (initial p) in
            let w2 := resync sync o (second, None) w1 in
            lastIPs w1 = ["a"; "b"]%string
            /\ lastIPs w2 = ["a"; "b"]%string
            /\ provider w2 = provider w1
            /\ syncCalls (trace w2) = syncCalls (trace w1)
            /\ last (trace w2) LogResyncing = LogNoChange.
Proof.
  split.
  - intros Provider sync o w [nodes err]. simpl fst.
    fold (sameJoin (aggregate o nodes) (lastIPs w)). split.
    + intros C. destruct (sameJoin_dec (aggregate o nodes) (lastIPs w))
        as [E|E]; [exact E|exfalso].
      destruct (@resync_changed _ sync o nodes err w E) as (_ & _ & C' & _).
      rewrite C' in C. apply (f_equal (@List.length _)) in C.
      rewrite length_app in C. simpl in C. lia.
    + intros E. now destruct (@resync_unchanged _ sync o nodes err w E)
        as (_ & _ & C & _).
  - exists [Sample.node "n" Sample.ready [Sample.ext "b"; Sample.ext "a"]],
           [Sample.node "n" Sample.ready [Sample.ext "a,b"]].
    cbv zeta. repeat (split; [reflexivity || discriminate|]).
    intros Provider sync p.
    set (o := Sample.policy false false).
    set (first := [Sample.node "n" Sample.ready [Sample.ext "b"; Sample.ext "a"]]).
    set (second := [Sample.node "n" Sample.ready [Sample.ext "a,b"]]).
    assert (D : ~ sameJoin (aggregate o first) (lastIPs (initial p)))
      by discriminate.
    destruct (@resync_changed _ sync o first None _ D) as (L1 & _).
    assert (S : sameJoin (aggregate o second)
                  (lastIPs (resync sync o (first, None) (initial p))))
      by (rewrite L1; reflexivity).
    destruct (@resync_unchanged _ sync o second None _ S) as (L2 & P2 & C2 & T2).
    rewrite L2, L1. repeat split; assumption.
Qed.

(* ================================================================== *)
(** ** The reconciliation plan *)
(* ================================================================== *)

Lemma mem_In (a : string) (l : list string) :
  Reconciler.mem a l = true <-> In a l.
Proof.
  unfold Reconciler.mem. rewrite existsb_exists. split.
  - intros (x & Hin & E). apply String.eqb_eq in E. now subst.
  - intros Hin. exists a. split; [exact Hin|apply String.eqb_refl].
Qed.

Lemma not_mem_In (a : string) (l : list string) :
  negb (Reconciler.mem a l) = true <-> ~ In a l.
Proof.
  rewrite negb_true_iff, <- mem_In. now destruct (Reconciler.mem a l).
Qed.

Lemma phases_app (l1 l2 : list Reconciler.operation) (k1 k2 : nat) :
  k1 <= k2 ->
  Forall (fun op => Reconciler.phase op <= k1) l1 ->
  Forall (fun op => k2 <= Reconciler.phase op) l2 ->
  StronglySorted (fun a b => Reconciler.phase a <= Reconciler.phase b) l1 ->
  StronglySorted (fun a b => Reconciler.phase a <= Reconciler.phase b) l2 ->
  StronglySorted (fun a b => Reconciler.phase a <= Reconciler.phase b) (l1 ++ l2).
Proof.
  intros Hk F1 F2 S1 S2. induction S1 as [|op l1 S1 IH Hall]; simpl.
  - exact S2.
  - inversion_clear F1 as [|? ? Hop F1']. constructor; [now apply IH|].
    apply Forall_app. split; [exact Hall|].
    eapply Forall_impl; [|exact F2]. simpl. intros b Hb. lia.
Qed.

Lemma phases_const (l : list Reconciler.operation) (k : nat) :
  Forall (fun op => Reconciler.phase op = k) l ->
  StronglySorted (fun a b => Reconciler.phase a <= Reconciler.phase b) l.
Proof.
  induction 1 as [|op l Hop F IH]; constructor; [exact IH|].
  eapply Forall_impl; [|exact F]. simpl. intros b Hb. lia.
Qed.

(** C8: for one name, the addresses to create are the desired ones no
    existing record holds, the records to delete are those whose content
    is not desired, the records to update are those whose content is
    desired and whose ttl or proxy flag differs from the configuration;
    the plan holds exactly these operations, every delete before every
    create and every create before every update. Desired
    {1.2.3.4, 5.6.7.8} against records for 9.9.9.9 and 1.2.3.4 (with the
    configured ttl and proxy flag) gives exactly: delete the 9.9.9.9
    record, create 5.6.7.8. *)
Theorem plan_is_set_difference (desired : list string)
    (existing : list Reconciler.ProviderRecord) (ttl : Z) (proxied : bool) :
  (forall a, In a (Reconciler.toCreate desired existing)
             <-> In a desired /\ ~ In a (map Reconciler.recContent existing))
  /\ (forall r, In r (Reconciler.toDelete desired existing)
                <-> In r existing /\ ~ In (Reconciler.recContent r) desired)
  /\ (forall r, In r (Reconciler.toUpdate desired existing ttl proxied)
                <-> In r existing /\ In (Reconciler.recContent r) desired
                    /\ (Reconciler.recTTL r <> ttl
                        \/ Reconciler.recProxied r <> proxied))
  /\ (forall op, In op (Reconciler.plan desired existing ttl proxied)
                 <-> match op with
                     | Reconciler.Delete r =>
                         In r (Reconciler.toDelete desired existing)
                     | Reconciler.Create a =>
                         In a (Reconciler.toCreate desired existing)
                     | Reconciler.Update r =>
                         In r (Reconciler.toUpdate desired existing ttl proxied)
                     end)
  /\ StronglySorted (fun a b => Reconciler.phase a <= Reconciler.phase b)
       (Reconciler.plan desired existing ttl proxied)
  /\ (forall id1 id2 name,
        Reconciler.plan ["1.2.3.4"; "5.6.7.8"]%string
          [ Reconciler.mkRecord id1 name "9.9.9.9" ttl proxied;
            Reconciler.mkRecord id2 name "1.2.3.4" ttl proxied ]
          ttl proxied
        = [ Reconciler.Delete (Reconciler.mkRecord id1 name "9.9.9.9" ttl proxied);
            Reconciler.Create "5.6.7.8" ]).
Proof.
  split; [|split; [|split; [|split; [|split]]]].
  - intros a. unfold Reconciler.toCreate. rewrite filter_In.
    now rewrite not_mem_In.
  - intros r. unfold Reconciler.toDelete. rewrite filter_In.
    now rewrite not_mem_In.
  - intros r. unfold Reconciler.toUpdate.
    rewrite filter_In, andb_true_iff, orb_true_iff, !negb_true_iff, mem_In.
    rewrite Z.eqb_neq, Bool.eqb_false_iff. tauto.
  - intros op. unfold Reconciler.plan. rewrite !in_app_iff, !in_map_iff.
    destruct op as [r|a|r]; split.
    + intros [(x & E & H)|[(x & E & H)|(x & E & H)]]; try discriminate.
      now injection E as <-.
    + intros H. left. eauto.
    + intros [(x & E & H)|[(x & E & H)|(x & E & H)]]; try discriminate.
      now injection E as <-.
    + intros H. right. left. eauto.
    + intros [(x & E & H)|[(x & E & H)|(x & E & H)]]; try discriminate.
      now injection E as <-.
    + intros H. right. right. eauto.
  - unfold Reconciler.plan.
    apply (@phases_app _ _ 0 1); [lia| | | |].
    + apply Forall_forall. intros op Hin. apply in_map_iff in Hin as (x & <- & _).
      simpl. lia.
    + apply Forall_app. split; apply Forall_forall; intros op Hin;
        apply in_map_iff in Hin as (x & <- & _); simpl; lia.
    + apply (@phases_const _ 0). apply Forall_forall. intros op Hin.
      now apply in_map_iff in Hin as (x & <- & _).
    + apply (@phases_app _ _ 1 2); [lia| | | |].
      * apply Forall_forall. intros op Hin.
        apply in_map_iff in Hin as (x & <- & _). simpl. lia.
      * apply Forall_forall. intros op Hin.
        apply in_map_iff in Hin as (x & <- & _). simpl. lia.
      * apply (@phases_const _ 1). apply Forall_forall. intros op Hin.
        now apply in_map_iff in Hin as (x & <- & _).
      * apply (@phases_const _ 2). apply Forall_forall. intros op Hin.
        now apply in_map_iff in Hin as (x & <- & _).
  - intros id1 id2 name.
    unfold Reconciler.plan, Reconciler.toDelete, Reconciler.toCreate,
      Reconciler.toUpdate.
    simpl. now rewrite Z.eqb_refl, Bool.eqb_reflx.
Qed.

(* ================================================================== *)
(** ** [strings.Split] against [strings.Join] *)
(* ================================================================== *)

Lemma split_cons (s : string) (sep : ascii) :
  exists field fields, strings_Split s sep = field :: fields.
Proof.
  destruct s as [|c rest]; simpl; [eauto|].
  destruct (Ascii.eqb c sep); [eauto|].
  destruct (strings_Split rest sep); eauto.
Qed.

Lemma joinRest_cons (x : string) (l : list string) :
  joinRest "," (x :: l) = String ","%char (strings_Join (x :: l) ",").
Proof. reflexivity. Qed.

Lemma join_split (s : string) :
  strings_Join (strings_Split s ","%char) "," = s.
Proof.
  induction s as [|c rest IH]; [reflexivity|].
  simpl strings_Split. destruct (split_cons rest ","%char) as (f & fs & E).
  rewrite E in *. destruct (Ascii.eqb_spec c ","%char) as [->|_].
  - unfold strings_Join at 1. rewrite joinRest_cons, IH. reflexivity.
  - simpl in *. now rewrite IH.
Qed.

Lemma split_app (s1 s2 : string) (sep : ascii) :
  strings_Split (String.append s1 (String sep s2)) sep
  = strings_Split s1 sep ++ strings_Split s2 sep.
Proof.
  induction s1 as [|c rest IH]; simpl.
  - now rewrite Ascii.eqb_refl.
  - rewrite IH. destruct (Ascii.eqb c sep); [reflexivity|].
    now destruct (split_cons rest sep) as (f & fs & ->).
Qed.

Lemma split_single (s : string) :
  hasComma s = false -> strings_Split s ","%char = [s].
Proof.
  induction s as [|c rest IH]; [reflexivity|]. simpl.
  intros H. apply orb_false_elim in H as [Hc Hr].
  now rewrite Hc, (IH Hr).
Qed.

Lemma split_fields_comma_free (s : string) :
  Forall (fun field => hasComma field = false) (strings_Split s ","%char).
Proof.
  induction s as [|c rest IH]; simpl; [now repeat constructor|].
  destruct (Ascii.eqb c ","%char) eqn:Ec; [now constructor|].
  destruct (strings_Split rest ","%char) as [|f fs].
  - repeat constructor. simpl. now rewrite Ec.
  - inversion_clear IH as [|? ? Hf Hfs]. constructor; [|exact Hfs].
    simpl. now rewrite Ec.
Qed.

Lemma append_empty (s : string) : String.append s EmptyString = s.
Proof. induction s as [|c rest IH]; simpl; [reflexivity|now rewrite IH]. Qed.

Lemma split_join (names : list string) :
  names <> [] -> Forall (fun name => hasComma name = false) names ->
  strings_Split (strings_Join names ",") ","%char = names.
Proof.
  induction names as [|x rest IH]; [congruence|]. intros _ F.
  inversion_clear F as [|? ? Hx Hrest]. destruct rest as [|y rest].
  - simpl. rewrite append_empty. now apply split_single.
  - change (strings_Join (x :: y :: rest) ",")
      with (String.append x (String ","%char (strings_Join (y :: rest) ","))).
    rewrite split_app, split_single by exact Hx.
    simpl app. f_equal. now apply IH.
Qed.

Lemma onlyEmpty_split (s : string) :
  onlyEmpty (strings_Split s ","%char) = true <-> s = EmptyString.
Proof.
  split; [|now intros ->].
  destruct s as [|c rest]; [reflexivity|]. simpl strings_Split.
  destruct (split_cons rest ","%char) as (f & fs & ->).
  unfold onlyEmpty. destruct (Ascii.eqb c ","%char); simpl; intros H.
  - discriminate.
  - apply andb_prop in H as [_ H]. discriminate.
Qed.

(* ================================================================== *)
(** ** The start-up checks *)
(* ================================================================== *)

Lemma credentials_test (f : Flags.options) :
  String.eqb (Flags.CloudflareAPIToken f) EmptyString
  && (String.eqb (Flags.CloudflareAPIEmail f) EmptyString
      || String.eqb (Flags.CloudflareAPIKey f) EmptyString) = false
  <-> hasCredentials f.
Proof.
  unfold hasCredentials.
  destruct (String.eqb_spec (Flags.CloudflareAPIToken f) EmptyString) as [->|T];
    destruct (String.eqb_spec (Flags.CloudflareAPIEmail f) EmptyString) as [->|E];
    destruct (String.eqb_spec (Flags.CloudflareAPIKey f) EmptyString) as [->|K];
    simpl; split; intros H; try reflexivity; try discriminate; auto;
    destruct H as [H|[H1 H2]]; congruence.
Qed.

(** What [configure] returns once the three checks pass. *)
Lemma configure_passes (f : Flags.options) :
  hasCredentials f ->
  Flags.DNSName f <> EmptyString -> Flags.DNSRoots f <> EmptyString ->
  configure f
  = Configured
      ((match strconv_ParseBool (Flags.CloudflareProxy f) with
        | Some _ => []
        | None =>
            ["CloudflareProxy config not found or incorrect, defaulting to false"%string]
        end)
       ++ (match strconv_Atoi (Flags.CloudflareTTL f) with
           | Some _ => []
           | None =>
               ["CloudflareTTL config not found or incorrect, defaulting to 120"%string]
           end))
      (mkOptions (Flags.UseInternalIP f) (Flags.SkipExternalIP f)
         (strings_Split (Flags.DNSName f) ","%char)
         (strings_Split (Flags.DNSRoots f) ","%char)
         (match strconv_Atoi (Flags.CloudflareTTL f) with
          | Some n => n
          | None => 120%Z
          end)
         (match strconv_ParseBool (Flags.CloudflareProxy f) with
          | Some b => b
          | None => false
          end)).
Proof.
  intros Hc Hn Hr. unfold configure.
  apply credentials_test in Hc. rewrite Hc.
  destruct (onlyEmpty (strings_Split (Flags.DNSName f) ","%char)) eqn:En;
    [apply onlyEmpty_split in En; contradiction|].
  destruct (onlyEmpty (strings_Split (Flags.DNSRoots f) ","%char)) eqn:Er;
    [apply onlyEmpty_split in Er; contradiction|].
  destruct (strconv_ParseBool _), (strconv_Atoi _); simpl;
    now rewrite ?app_nil_r.
Qed.

Lemma configure_fatal_or_passes (f : Flags.options) :
  (~ hasCredentials f /\
   configure f = Fatal "cloudflare api token or email+key is required")
  \/ (hasCredentials f /\ Flags.DNSName f = EmptyString /\
      configure f = Fatal "dns name is required")
  \/ (hasCredentials f /\ Flags.DNSName f <> EmptyString /\
      Flags.DNSRoots f = EmptyString /\
      configure f = Fatal "dns root is required")
  \/ (hasCredentials f /\ Flags.DNSName f <> EmptyString /\
      Flags.DNSRoots f <> EmptyString).
Proof.
  unfold configure.
  destruct (_ && _) eqn:Ec.
  - left. split; [|reflexivity]. rewrite <- credentials_test. congruence.
  - apply credentials_test in Ec. right.
    destruct (String.eqb_spec (Flags.DNSName f) EmptyString) as [En|En].
    + left. rewrite En. auto.
    + right.
      destruct (onlyEmpty (strings_Split (Flags.DNSName f) ","%char)) eqn:E1;
        [apply onlyEmpty_split in E1; contradiction|].
      destruct (String.eqb_spec (Flags.DNSRoots f) EmptyString) as [Er|Er].
      * left. rewrite Er. auto.
      * right. auto.
Qed.

Lemma configure_inv (f : Flags.options) (logged : list string) (o : Options) :
  configure f = Configured logged o ->
  hasCredentials f /\ Flags.DNSName f <> EmptyString
  /\ Flags.DNSRoots f <> EmptyString.
Proof.
  intros E.
  destruct (configure_fatal_or_passes f)
    as [[_ F]|[(_ & _ & F)|[(_ & _ & _ & F)|H]]];
    try (rewrite F in E; discriminate). exact H.
Qed.

(** X1: the configuration part of [main] gets past its three fatal checks
    exactly when credentials are given (a token, or an email with a key)
    and neither the name string nor the root string is empty; otherwise it
    stops with the message of the first check that fails, in the order
    credentials, names, roots. The proxy and ttl strings never stop it. *)
Theorem configure_succeeds_iff (f : Flags.options) :
  ((exists logged o, configure f = Configured logged o)
   <-> hasCredentials f /\ Flags.DNSName f <> EmptyString
       /\ Flags.DNSRoots f <> EmptyString)
  /\ (~ hasCredentials f ->
      configure f = Fatal "cloudflare api token or email+key is required")
  /\ (hasCredentials f -> Flags.DNSName f = EmptyString ->
      configure f = Fatal "dns name is required")
  /\ (hasCredentials f -> Flags.DNSName f <> EmptyString ->
      Flags.DNSRoots f = EmptyString ->
      configure f = Fatal "dns root is required").
Proof.
  pose proof (configure_fatal_or_passes f) as H.
  split; [split|split; [|split]].
  - intros (logged & o & E). exact (@configure_inv f logged o E).
  - intros (Hc & Hn & Hr). rewrite (@configure_passes f Hc Hn Hr). eauto.
  - intros N. destruct H as [[_ F]|[(C & _)|[(C & _)|(C & _)]]];
      [exact F|contradiction..].
  - intros C N. destruct H as [[C' _]|[(_ & _ & F)|[(_ & N' & _)|(_ & N' & _)]]];
      [contradiction|exact F|contradiction..].
  - intros C N R.
    destruct H as [[C' _]|[(_ & N' & _)|[(_ & _ & _ & F)|(_ & _ & R')]]];
      [contradiction..|exact F|contradiction].
Qed.

Lemma configure_succeeds_iff_witness :
  (exists logged o, configure SampleFlags.base = Configured logged o)
  /\ configure (SampleFlags.withNames "") = Fatal "dns name is required".
Proof.
  split.
  - apply (proj1 (configure_succeeds_iff SampleFlags.base)).
    unfold hasCredentials. simpl. repeat split; try discriminate.
    left. discriminate.
  - apply (proj1 (proj2 (proj2 (configure_succeeds_iff
                                    (SampleFlags.withNames ""))))).
    + left. discriminate.
    + reflexivity.
Defined.

(** X2: when start-up succeeds, the configured names are exactly the
    comma-separated fields of the name string: there is at least one, none
    holds a comma, and joining them with commas gives the string back; the
    same holds for the roots. The two policy flags are passed on as
    given. *)
Theorem configured_names_are_fields (f : Flags.options)
    (logged : list string) (o : Options) :
  configure f = Configured logged o ->
  strings_Join (dnsNames o) "," = Flags.DNSName f
  /\ dnsNames o <> []
  /\ Forall (fun name => hasComma name = false) (dnsNames o)
  /\ strings_Join (dnsRoots o) "," = Flags.DNSRoots f
  /\ dnsRoots o <> []
  /\ Forall (fun root => hasComma root = false) (dnsRoots o)
  /\ UseInternalIP o = Flags.UseInternalIP f
  /\ SkipExternalIP o = Flags.SkipExternalIP f.
Proof.
  intros E.
  destruct (@configure_inv f logged o E) as (Hc & Hn & Hr).
  rewrite (@configure_passes f Hc Hn Hr) in E. injection E as _ <-. simpl.
  repeat split; try apply join_split; try apply split_fields_comma_free.
  - destruct (split_cons (Flags.DNSName f) ","%char) as (x & l & ->).
    discriminate.
  - destruct (split_cons (Flags.DNSRoots f) ","%char) as (x & l & ->).
    discriminate.
Qed.

Lemma configured_names_are_fields_witness :
  exists logged o,
    configure (SampleFlags.withTTL "300") = Configured logged o
    /\ strings_Join (dnsNames o) "," = "a.example.com,b.example.com"%string
    /\ dnsNames o = ["a.example.com"; "b.example.com"]%string.
Proof.
  eexists _, _. split; [reflexivity|]. split; [|reflexivity].
  exact (proj1 (@configured_names_are_fields (SampleFlags.withTTL "300")
                  _ _ eq_refl)).
Defined.

(** X3: any non-empty list of comma-free names other than the single empty
    name can be configured: given as its comma-joined string, start-up
    succeeds and the closure is built over exactly that list. *)
Theorem names_round_trip (f : Flags.options) (names : list string) :
  hasCredentials f -> Flags.DNSRoots f <> EmptyString ->
  names <> [] -> names <> [EmptyString] ->
  Forall (fun name => hasComma name = false) names ->
  Flags.DNSName f = strings_Join names "," ->
  exists logged o, configure f = Configured logged o /\ dnsNames o = names.
Proof.
  intros Hc Hr Hne Hnot F E.
  assert (S : strings_Split (Flags.DNSName f) ","%char = names)
    by (rewrite E; now apply split_join).
  assert (Hn : Flags.DNSName f <> EmptyString).
  { intros N. rewrite N in S. simpl in S. congruence. }
  rewrite (@configure_passes f Hc Hn Hr). eexists _, _. split; [reflexivity|].
  exact S.
Qed.

Lemma names_round_trip_witness :
  exists logged o,
    configure (SampleFlags.withNames "a.example.com,,b.example.com")
    = Configured logged o
    /\ dnsNames o = ["a.example.com"; ""; "b.example.com"]%string.
Proof.
  apply (@names_round_trip
           (SampleFlags.withNames "a.example.com,,b.example.com")
           ["a.example.com"; ""; "b.example.com"]%string).
  - left. discriminate.
  - discriminate.
  - discriminate.
  - discriminate.
  - repeat constructor.
  - reflexivity.
Defined.

(** X4: the name check only rejects the wholly empty string. A name string
    with a leading comma, a trailing comma or two commas in a row passes
    it, and the empty name is then among the configured names. *)
Theorem empty_name_accepted (f : Flags.options) (s1 s2 : string) :
  hasCredentials f -> Flags.DNSRoots f <> EmptyString ->
  Flags.DNSName f = String.append s1 (String ","%char s2) ->
  s1 = EmptyString \/ s2 = EmptyString \/ (exists t, s2 = String ","%char t) ->
  exists logged o,
    configure f = Configured logged o /\ In EmptyString (dnsNames o).
Proof.
  intros Hc Hr E Hform.
  assert (Hn : Flags.DNSName f <> EmptyString).
  { rewrite E. destruct s1; discriminate. }
  rewrite (@configure_passes f Hc Hn Hr). eexists _, _. split; [reflexivity|].
  simpl dnsNames. rewrite E, split_app. apply in_or_app.
  destruct Hform as [->|[->|[t ->]]].
  - left. now left.
  - right. now left.
  - right. simpl. now left.
Qed.

Lemma empty_name_accepted_witness :
  exists logged o,
    configure (SampleFlags.withNames "nodes.example.com,")
    = Configured logged o
    /\ In EmptyString (dnsNames o).
Proof.
  apply (@empty_name_accepted (SampleFlags.withNames "nodes.example.com,")
           "nodes.example.com" "").
  - left. discriminate.
  - discriminate.
  - reflexivity.
  - right. left. reflexivity.
Defined.

(* ================================================================== *)
(** ** The ttl and proxy settings *)
(* ================================================================== *)

Lemma parseDigits_foreign (s : string) :
  hasForeignByte s = true -> forall n, parseDigits s n = None.
Proof.
  induction s as [|c rest IH]; simpl; [discriminate|].
  intros H n. destruct (digitOf c); [now apply IH|reflexivity].
Qed.

Lemma sign_not_digit (c : ascii) :
  Ascii.eqb c "-"%char || Ascii.eqb c "+"%char = true -> digitOf c = None.
Proof.
  intros H. apply orb_prop in H as [H|H]; apply Ascii.eqb_eq in H; now subst.
Qed.

Lemma atoi_foreign (s : string) :
  s = EmptyString \/ hasForeignByte s = true -> strconv_Atoi s = None.
Proof.
  intros [->|H]; [reflexivity|].
  destruct s as [|c0 rest]; [discriminate|]. unfold strconv_Atoi.
  destruct (Ascii.eqb c0 "-"%char || Ascii.eqb c0 "+"%char) eqn:Es.
  - simpl in H. rewrite (sign_not_digit _ Es), Es in H. simpl in H.
    destruct rest; [reflexivity|]. now rewrite (parseDigits_foreign _ H).
  - now rewrite (parseDigits_foreign _ H).
Qed.

Lemma digitOf_range (c : ascii) (d : Z) :
  digitOf c = Some d -> (0 <= d <= 9)%Z.
Proof.
  unfold digitOf.
  destruct ((48 <=? _)%Z && (_ <=? 57)%Z) eqn:E; [|discriminate].
  intros [= <-]. apply andb_prop in E as [E1 E2]. lia.
Qed.

Lemma parseDigits_all (d : string) :
  allDigits d = true ->
  forall n, (0 <= n)%Z ->
  exists v, parseDigits d n = Some v
            /\ (n * 10 ^ Z.of_nat (String.length d) <= v
                < (n + 1) * 10 ^ Z.of_nat (String.length d))%Z.
Proof.
  induction d as [|c rest IH]; intros H n Hn.
  - exists n. simpl. split; [reflexivity|lia].
  - simpl in H. simpl parseDigits. destruct (digitOf c) as [x|] eqn:Ec;
      [|discriminate].
    apply digitOf_range in Ec.
    destruct (IH H (n * 10 + x)%Z ltac:(lia)) as (v & -> & Hv).
    exists v. split; [reflexivity|].
    change (String.length (String c rest)) with (S (String.length rest)).
    rewrite Nat2Z.inj_succ, Z.pow_succ_r by lia.
    assert (0 < 10 ^ Z.of_nat (String.length rest))%Z
      by (apply Z.pow_pos_nonneg; lia).
    nia.
Qed.

Lemma atoi_digits (d : string) (neg : bool) :
  allDigits d = true -> d <> EmptyString -> String.length d <= 18 ->
  exists v, parseDigits d 0 = Some v /\ (0 <= v)%Z
            /\ strconv_Atoi (if neg then String "-"%char d else d)
               = Some (if neg then (- v)%Z else v).
Proof.
  intros Hd Hne Hlen.
  destruct (@parseDigits_all d Hd 0%Z ltac:(lia)) as (v & Ev & Hv).
  assert (Hb : (0 <= v < 2 ^ 63)%Z).
  { assert (10 ^ Z.of_nat (String.length d) <= 10 ^ 18)%Z
      by (apply Z.pow_le_mono_r; lia).
    change (10 ^ 18)%Z with 1000000000000000000%Z in *.
    change (2 ^ 63)%Z with 9223372036854775808%Z. lia. }
  exists v. split; [exact Ev|]. split; [lia|].
  assert (R : forall n, (- 2 ^ 63 <= n < 2 ^ 63)%Z ->
                        (- 2 ^ 63 <=? n)%Z && (n <? 2 ^ 63)%Z = true).
  { intros n Hn. apply andb_true_intro. split;
      [apply Z.leb_le|apply Z.ltb_lt]; lia. }
  destruct d as [|c0 rest]; [congruence|]. destruct neg.
  - unfold strconv_Atoi. change (Ascii.eqb "-" "-") with true.
    cbv beta iota zeta. simpl orb. cbv iota. rewrite Ev.
    rewrite R by lia. reflexivity.
  - unfold strconv_Atoi.
    destruct (Ascii.eqb c0 "-"%char || Ascii.eqb c0 "+"%char) eqn:Es.
    + apply sign_not_digit in Es. simpl in Hd. now rewrite Es in Hd.
    + apply orb_false_elim in Es as [Em _]. rewrite Ev, Em.
      rewrite R by lia. reflexivity.
Qed.

Lemma existsb_eqb_In (s : string) (l : list string) :
  existsb (String.eqb s) l = true <-> In s l.
Proof.
  rewrite existsb_exists. split.
  - intros (x & Hin & E). apply String.eqb_eq in E. now subst.
  - intros Hin. exists s. split; [exact Hin|apply String.eqb_refl].
Qed.

(** X5: a ttl string that is empty, or holds any byte other than a decimal
    digit or a sign (a unit suffix, a blank, a decimal point), does not
    stop start-up: the ttl becomes 120 and the fallback is logged. *)
Theorem ttl_defaults_to_120 (f : Flags.options) (logged : list string)
    (o : Options) :
  configure f = Configured logged o ->
  Flags.CloudflareTTL f = EmptyString
  \/ hasForeignByte (Flags.CloudflareTTL f) = true ->
  cloudflareTTL o = 120%Z
  /\ In "CloudflareTTL config not found or incorrect, defaulting to 120"%string
       logged.
Proof.
  intros E H. destruct (@configure_inv f logged o E) as (Hc & Hn & Hr).
  rewrite (@configure_passes f Hc Hn Hr) in E. injection E as <- <-.
  rewrite (@atoi_foreign _ H). simpl. split; [reflexivity|].
  apply in_or_app. right. now left.
Qed.

Lemma ttl_defaults_to_120_witness :
  exists logged o,
    configure (SampleFlags.withTTL "300s") = Configured logged o
    /\ cloudflareTTL o = 120%Z.
Proof.
  eexists _, _. split; [reflexivity|].
  exact (proj1 (@ttl_defaults_to_120 (SampleFlags.withTTL "300s") _ _ eq_refl
                  (or_intror eq_refl))).
Defined.

(** X6: a ttl written as up to 18 decimal digits, with or without a
    leading minus, is taken as written and nothing is logged about it;
    there is no check that it is positive, so a ttl of zero or below
    reaches the closure. *)
Theorem ttl_taken_as_written (f : Flags.options) (logged : list string)
    (o : Options) (d : string) (neg : bool) :
  configure f = Configured logged o ->
  allDigits d = true -> d <> EmptyString -> String.length d <= 18 ->
  Flags.CloudflareTTL f = (if neg then String "-"%char d else d) ->
  exists v, parseDigits d 0 = Some v /\ (0 <= v)%Z
            /\ cloudflareTTL o = (if neg then (- v)%Z else v)
            /\ ~ In "CloudflareTTL config not found or incorrect, defaulting to 120"%string
                 logged.
Proof.
  intros E Hd Hne Hlen Ht.
  destruct (@configure_inv f logged o E) as (Hc & Hn & Hr).
  rewrite (@configure_passes f Hc Hn Hr) in E. injection E as <- <-.
  destruct (@atoi_digits d neg Hd Hne Hlen) as (v & Ev & Hv & Ea).
  exists v. rewrite Ht, Ea. simpl. repeat split; try assumption.
  rewrite app_nil_r. destruct (strconv_ParseBool _); simpl.
  - tauto.
  - intros [N|[]]. discriminate.
Qed.

Lemma ttl_taken_as_written_witness :
  exists logged o,
    configure (SampleFlags.withTTL "-30") = Configured logged o
    /\ cloudflareTTL o = (- 30)%Z.
Proof.
  eexists _, _. split; [reflexivity|].
  destruct (@ttl_taken_as_written (SampleFlags.withTTL "-30") _ _ "30" true
              eq_refl eq_refl ltac:(discriminate) ltac:(simpl; lia) eq_refl)
    as (v & Ev & _ & Et & _).
  injection Ev as <-. exact Et.
Defined.

(** X7: the proxy flag is on exactly when the proxy string is one of the
    six true spellings; any string outside the twelve accepted spellings
    (the unset variable included) turns it off and is logged. *)
Theorem proxy_on_iff_true_spelling (f : Flags.options)
    (logged : list string) (o : Options) :
  configure f = Configured logged o ->
  (cloudflareProxy o = true
   <-> In (Flags.CloudflareProxy f)
         ["1"; "t"; "T"; "TRUE"; "true"; "True"]%string)
  /\ (In "CloudflareProxy config not found or incorrect, defaulting to false"%string
        logged
      <-> ~ In (Flags.CloudflareProxy f)
            ["1"; "t"; "T"; "TRUE"; "true"; "True";
             "0"; "f"; "F"; "FALSE"; "false"; "False"]%string).
Proof.
  intros E. destruct (@configure_inv f logged o E) as (Hc & Hn & Hr).
  rewrite (@configure_passes f Hc Hn Hr) in E. injection E as <- <-.
  cbn [cloudflareProxy]. unfold strconv_ParseBool.
  change ["1"; "t"; "T"; "TRUE"; "true"; "True";
          "0"; "f"; "F"; "FALSE"; "false"; "False"]%string
    with (["1"; "t"; "T"; "TRUE"; "true"; "True"]%string
          ++ ["0"; "f"; "F"; "FALSE"; "false"; "False"]%string).
  remember ["1"; "t"; "T"; "TRUE"; "true"; "True"]%string as yes eqn:Hyes.
  remember ["0"; "f"; "F"; "FALSE"; "false"; "False"]%string as no eqn:Hno.
  clear Hyes Hno.
  assert (W : forall l : list string,
             In "CloudflareProxy config not found or incorrect, defaulting to false"%string
               (l ++ match strconv_Atoi (Flags.CloudflareTTL f) with
                     | Some _ => []
                     | None =>
                         ["CloudflareTTL config not found or incorrect, defaulting to 120"%string]
                     end)
             <-> In "CloudflareProxy config not found or incorrect, defaulting to false"%string l).
  { intros l. rewrite in_app_iff. split; [|auto].
    intros [H|H]; [exact H|]. destruct (strconv_Atoi _); [destruct H|].
    destruct H as [H|[]]. discriminate. }
  rewrite W, in_app_iff.
  pose proof (existsb_eqb_In (Flags.CloudflareProxy f) yes) as Iy.
  pose proof (existsb_eqb_In (Flags.CloudflareProxy f) no) as In_.
  destruct (existsb (String.eqb (Flags.CloudflareProxy f)) yes);
    [|destruct (existsb (String.eqb (Flags.CloudflareProxy f)) no)];
    simpl; intuition congruence.
Qed.

Lemma proxy_on_iff_true_spelling_witness :
  exists logged o,
    configure (SampleFlags.withTTL "300") = Configured logged o
    /\ cloudflareProxy o = false
    /\ In "CloudflareProxy config not found or incorrect, defaulting to false"%string
         logged.
Proof.
  eexists _, _. split; [reflexivity|].
  pose proof (@proxy_on_iff_true_spelling (SampleFlags.withTTL "300") _ _
                eq_refl) as [_ Hlog].
  split; [reflexivity|]. apply Hlog.
  simpl. intros H. repeat (destruct H as [H|H]; [discriminate|]). exact H.
Defined.

(* ================================================================== *)
(** ** The selection policy *)
(* ================================================================== *)

Lemma contribution_origin (ty : NodeAddressType) (nodes : list Node)
    (a : string) :
  In a (flat_map (contribution ty) nodes) ->
  exists node addr,
    In node nodes /\ nodeIsReady node = true
    /\ In addr (Addresses (Status node))
    /\ Address addr = a /\ addrType addr = ty.
Proof.
  intros Hin. apply in_flat_map in Hin as (node & Hnode & Ha).
  unfold contribution in Ha. destruct (nodeIsReady node) eqn:R; [|easy].
  unfold addressesOfType in Ha. apply in_map_iff in Ha as (addr & Ea & Hf).
  apply filter_In in Hf as [Hin Hty]. apply String.eqb_eq in Hty.
  now exists node, addr.
Qed.

(** X8: outside the fallback setting the policy flags select one address
    type outright. With neither flag set the desired set is the sorted
    external addresses of the ready nodes and internal ones are never
    used; with both set it is the sorted internal addresses and external
    ones are never used; with only [SkipExternalIP] set it is empty
    whatever the nodes are. *)
Theorem aggregate_by_policy (o : Options) (nodes : list Node) :
  (SkipExternalIP o = false -> UseInternalIP o = false ->
   aggregate o nodes
   = sort_Strings (flat_map (contribution NodeExternalIP) nodes))
  /\ (SkipExternalIP o = true -> UseInternalIP o = true ->
      aggregate o nodes
      = sort_Strings (flat_map (contribution NodeInternalIP) nodes))
  /\ (SkipExternalIP o = true -> UseInternalIP o = false ->
      aggregate o nodes = []).
Proof.
  unfold aggregate. rewrite gather_spec.
  repeat split; intros Hs Hu; rewrite Hs, Hu; reflexivity.
Qed.

Lemma aggregate_by_policy_witness :
  aggregate (Sample.policy false false) Sample.inner = []
  /\ aggregate (Sample.policy true true) Sample.mixed
     = ["10.0.0.1"; "10.0.0.2"]%string
  /\ aggregate (Sample.policy false true) Sample.mixed = [].
Proof.
  split; [|split].
  - rewrite (proj1 (aggregate_by_policy (Sample.policy false false)
                      Sample.inner) eq_refl eq_refl).
    reflexivity.
  - rewrite (proj1 (proj2 (aggregate_by_policy (Sample.policy true true)
                             Sample.mixed)) eq_refl eq_refl).
    reflexivity.
  - exact (proj2 (proj2 (aggregate_by_policy (Sample.policy false true)
                           Sample.mixed)) eq_refl eq_refl).
Defined.

(** X9: every address in the desired set is the address of some ready
    node, of external type (and then external addresses are not skipped)
    or of internal type (and then internal addresses are enabled); a
    hostname or any other kind of address, and any address of a node that
    is not ready, never gets in. *)
Theorem aggregate_sound (o : Options) (nodes : list Node) (a : string) :
  In a (aggregate o nodes) ->
  exists node addr,
    In node nodes /\ nodeIsReady node = true
    /\ In addr (Addresses (Status node)) /\ Address addr = a
    /\ ((addrType addr = NodeExternalIP /\ SkipExternalIP o = false)
        \/ (addrType addr = NodeInternalIP /\ UseInternalIP o = true)).
Proof.
  intros Hin. unfold aggregate in Hin.
  apply (Permutation_in _ (sort_Strings_perm _)) in Hin.
  rewrite gather_spec in Hin. cbv zeta in Hin.
  destruct (SkipExternalIP o) eqn:Hs, (UseInternalIP o) eqn:Hu; simpl in Hin.
  - apply contribution_origin in Hin as (n & ad & H1 & H2 & H3 & H4 & H5).
    exists n, ad. auto 10.
  - destruct Hin.
  - destruct (List.length _ =? 0);
      apply contribution_origin in Hin as (n & ad & H1 & H2 & H3 & H4 & H5);
      exists n, ad; auto 10.
  - apply contribution_origin in Hin as (n & ad & H1 & H2 & H3 & H4 & H5).
    exists n, ad. auto 10.
Qed.

Lemma aggregate_sound_witness :
  exists node addr,
    In node Sample.mixed /\ nodeIsReady node = true
    /\ In addr (Addresses (Status node)) /\ Address addr = "5.6.7.8"%string
    /\ ((addrType addr = NodeExternalIP
         /\ SkipExternalIP (Sample.policy true false) = false)
        \/ (addrType addr = NodeInternalIP
            /\ UseInternalIP (Sample.policy true false) = true)).
Proof.
  apply (@aggregate_sound (Sample.policy true false) Sample.mixed).
  right. left. reflexivity.
Defined.

(* ================================================================== *)
(** ** Readiness and the order of conditions *)
(* ================================================================== *)

Lemma conditionsReady_app (l1 l2 : list NodeCondition) :
  conditionsReady (l1 ++ l2) = conditionsReady l1 || conditionsReady l2.
Proof.
  induction l1 as [|c rest IH]; simpl; [reflexivity|].
  now destruct (_ && _).
Qed.

(** X10: readiness does not depend on where the ready condition stands
    among the conditions: two nodes whose condition lists are
    rearrangements of each other are both ready or both not, and a node
    stays ready when further conditions, a false or unknown ready
    condition included, are listed before or after its true one. *)
Theorem readiness_order_independent (n1 n2 : Node)
    (before after : list NodeCondition) :
  Permutation (Conditions (Status n1)) (Conditions (Status n2)) ->
  nodeIsReady n1 = nodeIsReady n2
  /\ (nodeIsReady n1 = true ->
      nodeIsReady
        (mkNode (Name n1)
           (mkStatus (before ++ Conditions (Status n1) ++ after)
              (Addresses (Status n1)))) = true).
Proof.
  intros P. split.
  - unfold nodeIsReady.
    destruct (conditionsReady (Conditions (Status n1))) eqn:E1;
      destruct (conditionsReady (Conditions (Status n2))) eqn:E2;
      try reflexivity; exfalso.
    + apply conditionsReady_true in E1 as (c & Hin & H).
      apply (Permutation_in _ P) in Hin.
      assert (T : conditionsReady (Conditions (Status n2)) = true)
        by (apply conditionsReady_true; eauto). congruence.
    + apply conditionsReady_true in E2 as (c & Hin & H).
      apply (Permutation_in _ (Permutation_sym P)) in Hin.
      assert (T : conditionsReady (Conditions (Status n1)) = true)
        by (apply conditionsReady_true; eauto). congruence.
  - unfold nodeIsReady. simpl. intros R.
    rewrite !conditionsReady_app, R. apply orb_true_iff. right. reflexivity.
Qed.

Lemma readiness_order_independent_witness :
  nodeIsReady Sample.nodeA
  = nodeIsReady (Sample.node "a'" (rev Sample.ready) [])
  /\ nodeIsReady
       (mkNode "a"
          (mkStatus (Sample.notReady ++ Sample.ready ++ Sample.readyUnknown)
             (Addresses (Status Sample.nodeA)))) = true.
Proof.
  assert (P : Permutation (Conditions (Status Sample.nodeA))
                (Conditions (Status (Sample.node "a'" (rev Sample.ready) []))))
    by apply Permutation_rev.
  split.
  - exact (proj1 (@readiness_order_independent Sample.nodeA _
                    Sample.notReady Sample.readyUnknown P)).
  - exact (proj2 (@readiness_order_independent Sample.nodeA _
                    Sample.notReady Sample.readyUnknown P) eq_refl).
Defined.

(* ================================================================== *)
(** ** Runs of passes *)
(* ================================================================== *)

Lemma adjacentDiffer_snoc (a : list string) (calls : list (list string))
    (x : list string) :
  adjacentDiffer (a :: calls) ->
  ~ sameJoin (last (a :: calls) []) x ->
  adjacentDiffer ((a :: calls) ++ [x]).
Proof.
  revert a. induction calls as [|b rest IH]; intros a H N.
  - simpl in *. auto.
  - destruct H as [Hab Hrest]. split; [exact Hab|].
    apply IH; [exact Hrest|]. exact N.
Qed.

Lemma last_cons_default (calls : list (list string)) :
  last ([] :: calls) [] = last calls [].
Proof. destruct calls; reflexivity. Qed.

Section RunFacts.

Variable Provider : Type.
Variable sync :
  list string -> list string -> list string -> Z -> bool ->
  Provider -> Provider * error.
Variable o : Options.

Lemma resync_settled (listed : list Node * error) (w : World Provider) :
  settled w -> settled (resync sync o listed w).
Proof.
  destruct listed as [nodes err]. intros (L & A & S). unfold settled.
  destruct (sameJoin_dec (aggregate o nodes) (lastIPs w)) as [E|E].
  - destruct (@resync_unchanged _ sync o nodes err w E) as (-> & _ & -> & _).
    auto.
  - destruct (@resync_changed _ sync o nodes err w E) as (-> & _ & -> & _).
    split; [now rewrite last_last|].
    split; [|apply sort_Strings_sorted].
    change ([] :: syncCalls (trace w) ++ [aggregate o nodes])
      with (([] :: syncCalls (trace w)) ++ [aggregate o nodes]).
    apply adjacentDiffer_snoc; [exact A|].
    rewrite last_cons_default, <- L. unfold sameJoin in *. congruence.
Qed.

Lemma run_settled (passes : list (list Node * error)) :
  forall w : World Provider, settled w -> settled (run sync o passes w).
Proof.
  induction passes as [|listed rest IH]; intros w H; [exact H|].
  change (run sync o (listed :: rest) w)
    with (run sync o rest (resync sync o listed w)).
  now apply IH, resync_settled.
Qed.

(** The [sync] calls a run adds, each traced back to its pass, and the
    provider they leave. *)
Lemma run_calls (passes : list (list Node * error)) :
  forall w : World Provider,
  exists added,
    syncCalls (trace (run sync o passes w)) = syncCalls (trace w) ++ added
    /\ provider (run sync o passes w)
       = fold_left
           (fun p ips =>
              fst (sync ips (dnsNames o) (dnsRoots o) (cloudflareTTL o)
                     (cloudflareProxy o) p))
           added (provider w)
    /\ Forall (fun ips => exists listed,
                   In listed passes /\ ips = aggregate o (fst listed)) added
    /\ List.length added <= List.length passes.
Proof.
  induction passes as [|[nodes err] rest IH]; intros w.
  - exists []. unfold run. simpl. rewrite app_nil_r. auto.
  - change (run sync o ((nodes, err) :: rest) w)
      with (run sync o rest (resync sync o (nodes, err) w)).
    destruct (IH (resync sync o (nodes, err) w)) as (added & C & P & F & Len).
    assert (F' : Forall (fun ips => exists listed,
                   In listed ((nodes, err) :: rest)
                   /\ ips = aggregate o (fst listed)) added).
    { eapply Forall_impl; [|exact F]. intros ips (listed & Hin & E).
      exists listed. split; [now right|exact E]. }
    destruct (sameJoin_dec (aggregate o nodes) (lastIPs w)) as [E|E].
    + destruct (@resync_unchanged _ sync o nodes err w E) as (_ & Pw & Cw & _).
      exists added. rewrite C, P, Cw, Pw. simpl. auto.
    + destruct (@resync_changed _ sync o nodes err w E) as (_ & Pw & Cw & _).
      exists (aggregate o nodes :: added).
      rewrite C, P, Cw, Pw, <- app_assoc. simpl.
      repeat split; [|lia]. constructor; [|exact F'].
      exists (nodes, err). split; [now left|reflexivity].
Qed.

Lemma run_empty_sets (passes : list (list Node * error)) :
  Forall (fun listed => aggregate o (fst listed) = []) passes ->
  forall w : World Provider,
    lastIPs w = [] ->
    provider (run sync o passes w) = provider w
    /\ syncCalls (trace (run sync o passes w)) = syncCalls (trace w).
Proof.
  induction 1 as [|[nodes err] rest Hx _ IH]; intros w Hw.
  - unfold run. simpl. auto.
  - change (run sync o ((nodes, err) :: rest) w)
      with (run sync o rest (resync sync o (nodes, err) w)).
    simpl in Hx.
    assert (S : sameJoin (aggregate o nodes) (lastIPs w))
      by (rewrite Hx, Hw; reflexivity).
    destruct (@resync_unchanged _ sync o nodes err w S) as (L & P & C & _).
    destruct (IH (resync sync o (nodes, err) w)) as (P' & C').
    + now rewrite L.
    + rewrite P', C', P, C. auto.
Qed.

End RunFacts.

(** X11: across any run of passes from start-up, the stored set is always
    the set of the latest [sync] call (empty while there has been none)
    and is sorted; the first call never carries a set whose joined string
    is empty, and no two calls in a row carry sets with the same joined
    string. *)
Theorem sync_calls_never_repeat (Provider : Type)
    (sync : list string -> list string -> list string -> Z -> bool ->
            Provider -> Provider * error)
    (o : Options) (p : Provider) (passes : list (list Node * error)) :
  lastIPs (run sync o passes (initial p))
  = last (syncCalls (trace (run sync o passes (initial p)))) []
  /\ adjacentDiffer ([] :: syncCalls (trace (run sync o passes (initial p))))
  /\ StronglySorted str_le (lastIPs (run sync o passes (initial p))).
Proof.
  apply run_settled. repeat split; simpl; auto. constructor.
Qed.

(** X12: every set handed to [sync] during a run is the desired set
    aggregated from the node list of one of the run's passes, and there
    are at most as many calls as passes. *)
Theorem sync_calls_come_from_passes (Provider : Type)
    (sync : list string -> list string -> list string -> Z -> bool ->
            Provider -> Provider * error)
    (o : Options) (p : Provider) (passes : list (list Node * error)) :
  Forall (fun ips => exists listed,
              In listed passes /\ ips = aggregate o (fst listed))
    (syncCalls (trace (run sync o passes (initial p))))
  /\ List.length (syncCalls (trace (run sync o passes (initial p))))
     <= List.length passes.
Proof.
  destruct (run_calls sync o passes (initial p)) as (added & C & _ & F & L).
  rewrite C. simpl. auto.
Qed.

(** X13: the provider is touched by nothing but the [sync] calls: its
    state after a run is the one obtained by applying, in order, the
    recorded calls with the configured names, roots, ttl and proxy flag
    to the state it started in. *)
Theorem provider_follows_sync_calls (Provider : Type)
    (sync : list string -> list string -> list string -> Z -> bool ->
            Provider -> Provider * error)
    (o : Options) (p : Provider) (passes : list (list Node * error)) :
  provider (run sync o passes (initial p))
  = fold_left
      (fun q ips =>
         fst (sync ips (dnsNames o) (dnsRoots o) (cloudflareTTL o)
                (cloudflareProxy o) q))
      (syncCalls (trace (run sync o passes (initial p)))) p.
Proof.
  destruct (run_calls sync o passes (initial p)) as (added & C & P & _).
  rewrite C, P. reflexivity.
Qed.

(** X14: started with [SkipExternalIP] set and [UseInternalIP] unset, the
    program never calls [sync], whatever nodes the cluster has and however
    many events arrive: every desired set is empty and equal to the
    initial stored one, so the provider stays as it was found. *)
Theorem skip_without_internal_never_syncs (Provider : Type)
    (sync : list string -> list string -> list string -> Z -> bool ->
            Provider -> Provider * error)
    (f : Flags.options) (logged : list string) (o : Options) (p : Provider)
    (passes : list (list Node * error)) :
  configure f = Configured logged o ->
  Flags.SkipExternalIP f = true -> Flags.UseInternalIP f = false ->
  syncCalls (trace (run sync o passes (initial p))) = []
  /\ provider (run sync o passes (initial p)) = p.
Proof.
  intros E Hs Hu. destruct (@configure_inv f logged o E) as (Hc & Hn & Hr).
  rewrite (@configure_passes f Hc Hn Hr) in E. injection E as _ <-.
  rewrite Hs, Hu.
  match goal with |- context [run sync ?o' passes (initial p)] =>
    destruct (@run_empty_sets _ sync o' passes) with (w := initial p)
      as (P & C)
  end.
  - apply Forall_forall. intros listed _. unfold aggregate.
    rewrite gather_spec. reflexivity.
  - reflexivity.
  - rewrite P, C. auto.
Qed.

Lemma skip_without_internal_never_syncs_witness :
  exists logged o,
    configure (Flags.mkFlags "" "" "secret-token" "" "" "nodes.example.com"
                 "example.com" false true "")
    = Configured logged o
    /\ syncCalls (trace (run Sample.okSync o
                           [(Sample.mixed, None); (Sample.twins, None)]
                           (initial ["9.9.9.9"%string]))) = []
    /\ provider (run Sample.okSync o
                   [(Sample.mixed, None); (Sample.twins, None)]
                   (initial ["9.9.9.9"%string])) = ["9.9.9.9"%string].
Proof.
  eexists _, _. split; [reflexivity|].
  exact (@skip_without_internal_never_syncs _ Sample.okSync
           (Flags.mkFlags "" "" "secret-token" "" "" "nodes.example.com"
              "example.com" false true "")
           _ _ ["9.9.9.9"%string]
           [(Sample.mixed, None); (Sample.twins, None)]
           eq_refl eq_refl eq_refl).
Defined.
